(** * Verification of the kleo-static-files server core

    Shallow embedding of:
    - [safePath] (server/utils/safe-path.ts) together with the POSIX [path]
      primitives it calls ([normalize], [resolve]);
    - the in-memory sliding-window rate limiter
      (server/middleware/rate-limit.ts);
    - the quota ledger updates of server/db.ts;
    - the Caddy admin-API route removal (server/caddy.ts) and the
      delete-site / upload handlers of server/index.ts. *)

From Stdlib Require Import ZArith Lia Ascii.
From stdpp Require Import base list gmap strings sorting.

(* ================================================================= *)
(** ** POSIX path primitives and [safePath] *)
(* ================================================================= *)

Module SafePath.

Definition sep_char : ascii := "/"%char.

(** [path.sep] on POSIX. *)
Definition sep : string := "/".

(** The separator test of Node's [isPosixPathSeparator]. *)
Definition is_sep (c : ascii) : bool := Ascii.eqb c sep_char.

(** The components of a path string, split at every separator (empty
    components included, exactly as the character loop of
    [normalizeString] sees them between two separators). *)
Fixpoint split_sep (s : string) : list string :=
  match s with
  | EmptyString => [EmptyString]
  | String c rest =>
      let parts := split_sep rest in
      if is_sep c then EmptyString :: parts
      else match parts with
           | p :: ps => String c p :: ps
           | [] => [String c EmptyString]
           end
  end.

(** One component processed by [normalizeString]; the result so far is
    kept as a stack of components, most recent first.
    - an empty component ([lastSlash === i - 1]) or ["."] ([dots === 1])
      is a no-op;
    - [".."] removes the last component unless the result is empty or ends
      in [".."]; in those cases it appends [".."] only when
      [allowAboveRoot];
    - any other component is appended. *)
Definition norm_step (allowAboveRoot : bool) (stack : list string)
    (seg : string) : list string :=
  if String.eqb seg EmptyString || String.eqb seg "." then stack
  else if String.eqb seg ".." then
    match stack with
    | top :: rest =>
        if String.eqb top ".." then
          (if allowAboveRoot then ".." :: stack else stack)
        else rest
    | [] => if allowAboveRoot then [".."] else []
    end
  else seg :: stack.

(** Components joined with the separator. *)
Fixpoint join_sep (l : list string) : string :=
  match l with
  | [] => EmptyString
  | [x] => x
  | x :: xs => x +:+ sep +:+ join_sep xs
  end.

(** The component stack computed by [normalizeString]. *)
Definition norm_segments (path : string) (allowAboveRoot : bool) : list string :=
  rev (fold_left (norm_step allowAboveRoot) (split_sep path) []).

(** [normalizeString(path, allowAboveRoot, '/', isPosixPathSeparator)]. *)
Definition normalizeString (path : string) (allowAboveRoot : bool) : string :=
  join_sep (norm_segments path allowAboveRoot).

(** [path.charCodeAt(0) === CHAR_FORWARD_SLASH]. *)
Definition is_absolute (s : string) : bool :=
  match s with
  | String c _ => is_sep c
  | EmptyString => false
  end.

(** [path.charCodeAt(path.length - 1) === CHAR_FORWARD_SLASH]. *)
Fixpoint ends_with_sep (s : string) : bool :=
  match s with
  | EmptyString => false
  | String c EmptyString => is_sep c
  | String _ rest => ends_with_sep rest
  end.

(** [path.posix.normalize]. *)
Definition normalize (path : string) : string :=
  if String.eqb path EmptyString then "."
  else
    let isAbsolute := is_absolute path in
    let trailingSeparator := ends_with_sep path in
    let p := normalizeString path (negb isAbsolute) in
    if String.eqb p EmptyString then
      (if isAbsolute then "/" else if trailingSeparator then "./" else ".")
    else
      let p' := if trailingSeparator then p +:+ "/" else p in
      if isAbsolute then "/" +:+ p' else p'.

(** The loop of [path.posix.resolve]: arguments are visited from the last
    one to the first and then the working directory ([posixCwd()]);
    empty arguments are skipped; [resolvedPath = `${path}/${resolvedPath}`]
    until an absolute argument is met. *)
Fixpoint resolve_loop (paths : list string) (resolvedPath : string)
    : string * bool :=
  match paths with
  | [] => (resolvedPath, false)
  | p :: ps =>
      if String.eqb p EmptyString then resolve_loop ps resolvedPath
      else
        let acc := p +:+ "/" +:+ resolvedPath in
        if is_absolute p then (acc, true) else resolve_loop ps acc
  end.

(** [path.posix.resolve(...args)] in a process whose working directory is
    [cwd]. *)
Definition resolve (cwd : string) (args : list string) : string :=
  let '(resolvedPath, resolvedAbsolute) := resolve_loop (rev args ++ [cwd]) EmptyString in
  let r := normalizeString resolvedPath (negb resolvedAbsolute) in
  if resolvedAbsolute then "/" +:+ r
  else if String.eqb r EmptyString then "." else r.

(** [String.prototype.startsWith]: [starts_with s prefix]. *)
Fixpoint starts_with (s prefix : string) : bool :=
  match prefix, s with
  | EmptyString, _ => true
  | String c p', String d s' => Ascii.eqb c d && starts_with s' p'
  | String _ _, EmptyString => false
  end.

(** [safePath(base, userPath)] of server/utils/safe-path.ts; [None] is
    [null]. *)
Definition safePath (cwd base userPath : string) : option string :=
  let normalizedUser := normalize userPath in
  let resolvedBase := resolve cwd [base] in
  let resolvedPath := resolve cwd [base; normalizedUser] in
  if negb (starts_with resolvedPath (resolvedBase +:+ sep))
     && negb (String.eqb resolvedPath resolvedBase)
  then None
  else Some resolvedPath.

(** The components of an absolute resolution, i.e. what
    [resolve cwd args] denotes once the working directory is absolute. *)
Definition resolved_segments (cwd : string) (args : list string) : list string :=
  norm_segments (fst (resolve_loop (rev args ++ [cwd]) EmptyString)) false.

(** A component: a string with no separator in it. *)
Fixpoint no_sep (s : string) : bool :=
  match s with
  | EmptyString => true
  | String c rest => negb (is_sep c) && no_sep rest
  end.

(** List-prefix test on components. *)
Fixpoint seg_prefix (l1 l2 : list string) : bool :=
  match l1, l2 with
  | [], _ => true
  | x :: xs, y :: ys => String.eqb x y && seg_prefix xs ys
  | _ :: _, [] => false
  end.

(** The user path, normalized and resolved against the root, lies inside
    the root: the root's components are a prefix of its components. *)
Definition inside (cwd base userPath : string) : bool :=
  seg_prefix (resolved_segments cwd [base])
             (resolved_segments cwd [base; normalize userPath]).

(** [path.posix.join(...args)]: the non-empty arguments joined with the
    separator and normalized; ["."] when there are none. *)
Definition join (args : list string) : string :=
  match List.filter (fun a => negb (String.eqb a EmptyString)) args with
  | [] => "."
  | path => normalize (join_sep path)
  end.

(** The NUL character and the test for an embedded NUL. *)
Definition nul : ascii := Ascii.ascii_of_nat 0.

Fixpoint contains_nul (s : string) : bool :=
  match s with
  | EmptyString => false
  | String c rest => Ascii.eqb c nul || contains_nul rest
  end.

End SafePath.

(* ================================================================= *)
(** ** The sliding-window rate limiter *)
(* ================================================================= *)

Module RateLimit.
Local Open Scope Z_scope.

(** The module-level [requests : Map<string, number[]>]. *)
Abbreviation store := (gmap string (list Z)).

(** The request headers the middleware reads. *)
Record request := {
  authorization : option string;
  x_forwarded_for : option string;
  x_real_ip : option string
}.

(** JavaScript [h || dflt] on a header value: [undefined] and the empty
    string are falsy. *)
Definition or_header (h : option string) (dflt : string) : string :=
  match h with
  | Some v => if String.eqb v EmptyString then dflt else v
  | None => dflt
  end.

(** [const ip = c.req.header("x-forwarded-for") || c.req.header("x-real-ip") || "unknown"]. *)
Definition client_ip (r : request) : string :=
  or_header (x_forwarded_for r) (or_header (x_real_ip r) "unknown").

(** [const key = authHeader || ip]. *)
Definition identity_key (r : request) : string :=
  or_header (authorization r) (client_ip r).

(** [Partial<RateLimitConfig>]. *)
Record config := { cfg_windowMs : option Z; cfg_maxRequests : option Z }.

(** [config?.x || dflt] on a number: [undefined] and [0] are falsy. *)
Definition or_number (o : option Z) (dflt : Z) : Z :=
  match o with
  | Some v => if Z.eqb v 0 then dflt else v
  | None => dflt
  end.

(** [Math.ceil(a / b)] for integers [a] and [b > 0]. *)
Definition ceil_div (a b : Z) : Z := - ((- a) / b).

(** A header value; [None] is [NaN] ([recent[0]] read from an empty
    array). *)
Abbreviation hval := (option Z).

(** What the middleware does with the request: either it calls [next()]
    (the request is admitted), or it returns [c.json(body, 429)]. *)
Inductive outcome :=
  | NextCalled (headers : list (string * hval))
  | Rejected (status : Z) (headers : list (string * hval)) (retryAfter : hval).

(** [timestamps.filter(t => now - t < windowMs)]. *)
Definition retained (windowMs now : Z) (timestamps : list Z) : list Z :=
  filter (fun t => now - t < windowMs) timestamps.

(** The in-window timestamps the middleware sees for [key]. *)
Definition recent_of (windowMs now : Z) (requests : store) (key : string) : list Z :=
  retained windowMs now (default [] (requests !! key)).

(** The middleware closure returned by [rateLimit(config)] for resolved
    [windowMs] and [maxRequests], run on a request at time [now]
    ([Date.now()]) against the store. *)
Definition middleware (windowMs maxRequests : Z) (r : request) (now : Z)
    (requests : store) : store * outcome :=
  let key := identity_key r in
  let recent := recent_of windowMs now requests key in
  if decide (maxRequests <= Z.of_nat (length recent)) then
    let resetTime := (fun t => ceil_div (t + windowMs - now) 1000) <$> head recent in
    (requests,
     Rejected 429
       [("X-RateLimit-Limit", Some maxRequests);
        ("X-RateLimit-Remaining", Some 0);
        ("X-RateLimit-Reset", resetTime);
        ("Retry-After", resetTime)]
       resetTime)
  else
    let recent' := recent ++ [now] in
    (<[key := recent']> requests,
     NextCalled
       [("X-RateLimit-Limit", Some maxRequests);
        ("X-RateLimit-Remaining", Some (maxRequests - Z.of_nat (length recent')));
        ("X-RateLimit-Reset", Some (ceil_div windowMs 1000))]).

(** [rateLimit(config)]: [envWindow] and [envMax] are
    [parseInt(process.env.SF_RATE_LIMIT_WINDOW || "60000")] and
    [parseInt(process.env.SF_RATE_LIMIT_MAX || "100")]. *)
Definition rateLimit (cfg : config) (envWindow envMax : Z)
    : request -> Z -> store -> store * outcome :=
  let windowMs := or_number (cfg_windowMs cfg) envWindow in
  let maxRequests := or_number (cfg_maxRequests cfg) envMax in
  middleware windowMs maxRequests.

(** The periodic sweep of the [setInterval] callback: each key keeps its
    in-window timestamps and keys left with none are deleted. *)
Definition sweep (envWindow now : Z) (requests : store) : store :=
  filter (fun kv => retained envWindow now kv.2 <> [])
    (retained envWindow now <$> requests).

(** What happens to the module-level store over time: calls through any
    middleware instance created by [rateLimit], the periodic sweep, and
    [clearRateLimits]. *)
Inductive event :=
  | Call (cfg : config) (r : request) (now : Z)
  | Sweep (now : Z)
  | Clear (now : Z).

Definition event_time (e : event) : Z :=
  match e with Call _ _ now => now | Sweep now => now | Clear now => now end.

Definition step (envWindow envMax : Z) (requests : store) (e : event) : store :=
  match e with
  | Call cfg r now => (rateLimit cfg envWindow envMax r now requests).1
  | Sweep now => sweep envWindow now requests
  | Clear _ => ∅
  end.

Definition run (envWindow envMax : Z) (evs : list event) (requests : store) : store :=
  fold_left (step envWindow envMax) evs requests.

(** The clock never runs backwards along the events. *)
Fixpoint times_nondecreasing (evs : list event) : Prop :=
  match evs with
  | [] => True
  | e :: rest =>
      Forall (fun e' => event_time e <= event_time e') rest /\ times_nondecreasing rest
  end.

(** The value a response header was set to ([c.res.headers.get]); a
    later [set] of the same name overrides an earlier one. *)
Fixpoint header_value (name : string) (hs : list (string * hval)) : option hval :=
  match hs with
  | [] => None
  | (n, v) :: rest =>
      match header_value name rest with
      | Some v' => Some v'
      | None => if String.eqb n name then Some v else None
      end
  end.

(** The middleware called [next()]. *)
Definition is_admitted (o : outcome) : bool :=
  match o with NextCalled _ => true | Rejected _ _ _ => false end.

(** The middleware answered with status 429. *)
Definition is_limited (o : outcome) : bool :=
  match o with Rejected st _ _ => Z.eqb st 429 | NextCalled _ => false end.

(** Every stored sequence is in ascending order and none lies after
    [now]. *)
Definition store_ok (now : Z) (requests : store) : Prop :=
  map_Forall (fun _ ts => StronglySorted Z.le ts /\ Forall (fun t => t <= now) ts)
    requests.

(** A request carrying no usable bearer credential. *)
Definition no_credential (r : request) : Prop :=
  authorization r = None \/ authorization r = Some EmptyString.

(** [getRateLimitStats()]: the number of keys and the number of stored
    timestamps over all keys. *)
Definition getRateLimitStats (requests : store) : Z * Z :=
  (Z.of_nat (size requests),
   map_fold (fun _ ts totalRequests => totalRequests + Z.of_nat (length ts)) 0 requests).

(** Every call of the history goes through a middleware whose resolved
    [maxRequests] is [m]. *)
Definition calls_max (envMax m : Z) (evs : list event) : Prop :=
  Forall (fun e => match e with
                   | Call cfg _ _ => or_number (cfg_maxRequests cfg) envMax = m
                   | _ => True
                   end) evs.

(** Every stored sequence holds at least one and at most [m] timestamps. *)
Definition limits_ok (m : Z) (requests : store) : Prop :=
  map_Forall (fun _ ts => (1 <= length ts)%nat /\ Z.of_nat (length ts) <= m) requests.

(** Sample inputs. *)
Definition example_request : request :=
  {| authorization := Some "Bearer k"; x_forwarded_for := None; x_real_ip := None |}.

Definition example_config : config :=
  {| cfg_windowMs := Some 60000; cfg_maxRequests := Some 3 |}.

Definition example_full_store : store := <["Bearer k" := [0; 10; 20]]> ∅.

Definition example_limited_headers : list (string * hval) :=
  [("X-RateLimit-Limit", Some 3); ("X-RateLimit-Remaining", Some 0);
   ("X-RateLimit-Reset", Some 60); ("Retry-After", Some 60)].

Definition anonymous_request : request :=
  {| authorization := None; x_forwarded_for := Some "10.0.0.1"; x_real_ip := None |}.

Definition example_history : list event :=
  [Call example_config example_request 0; Call example_config example_request 10;
   Call example_config example_request 20].

End RateLimit.

(* ================================================================= *)
(** ** The [sites] table and its quota ledger queries (server/db.ts) *)
(* ================================================================= *)

Module Ledger.
Local Open Scope Z_scope.

(** The columns of a [sites] row that the handlers and the quota queries
    read or write. *)
Record site := {
  site_path : string;
  quota_bytes : Z;
  used_bytes : Z
}.

(** The [sites] table, keyed by its [UNIQUE] column [name]. *)
Abbreviation sites := (gmap string site).

Definition with_used (st : site) (u : Z) : site :=
  {| site_path := site_path st; quota_bytes := quota_bytes st; used_bytes := u |}.

(** [UPDATE sites SET used_bytes = f(used_bytes) WHERE name = ?]: the row
    named [name], if any, gets the new value; no row, no change. *)
Definition update_used (f : Z -> Z) (name : string) (db : sites) : sites :=
  match db !! name with
  | Some st => <[name := with_used st (f (used_bytes st))]> db
  | None => db
  end.

(** [UPDATE sites SET used_bytes = ? WHERE name = ?]. *)
Definition updateUsedBytes (bytes : Z) (name : string) (db : sites) : sites :=
  update_used (fun _ => bytes) name db.

(** [UPDATE sites SET used_bytes = used_bytes + ? WHERE name = ?]. *)
Definition incrementUsedBytes (bytes : Z) (name : string) (db : sites) : sites :=
  update_used (fun u => u + bytes) name db.

(** [UPDATE sites SET used_bytes = MAX(0, used_bytes - ?) WHERE name = ?]. *)
Definition decrementUsedBytes (bytes : Z) (name : string) (db : sites) : sites :=
  update_used (fun u => Z.max 0 (u - bytes)) name db.

(** The three ledger updates, as a caller would issue them. *)
Inductive ledger_op :=
  | Update (bytes : Z) (name : string)
  | Increment (bytes : Z) (name : string)
  | Decrement (bytes : Z) (name : string).

Definition apply_op (db : sites) (op : ledger_op) : sites :=
  match op with
  | Update b n => updateUsedBytes b n db
  | Increment b n => incrementUsedBytes b n db
  | Decrement b n => decrementUsedBytes b n db
  end.

(** The argument of an update is a byte count, not a negative delta. *)
Definition op_arg_nonneg (op : ledger_op) : Prop :=
  match op with
  | Update b _ | Increment b _ => 0 <= b
  | Decrement _ _ => True
  end.

(** No row has a negative [used_bytes]. *)
Definition ledger_ok (db : sites) : Prop :=
  map_Forall (fun _ st => 0 <= used_bytes st) db.

Definition example_site : site :=
  {| site_path := "/var/sites/s"; quota_bytes := 1000; used_bytes := 50 |}.

Definition example_db : sites := <["s" := example_site]> ∅.

End Ledger.

(* ================================================================= *)
(** ** Route removal through the Caddy admin API *)
(* ================================================================= *)

Module Caddy.
Local Open Scope Z_scope.

(** How an [async] function settles: it returns, or it throws. *)
Inductive completion :=
  | Returned
  | Threw.

(** [res.ok] of a [fetch] response: a status in 200..299. *)
Definition ok (status : Z) : bool := (200 <=? status) && (status <=? 299).

(** [removeSite(name)] of the admin-API module, given the status of the
    response to [DELETE /id/sf-{name}]: it throws when
    [!res.ok && res.status !== 404]. *)
Definition removeSite_api_module (status : Z) : completion :=
  if negb (ok status) && negb (status =? 404) then Threw else Returned.

(** [removeSiteViaApi(name)] of server/caddy.ts. *)
Definition removeSiteViaApi (status : Z) : completion :=
  if negb (ok status) && negb (status =? 404) then Threw else Returned.

(** [removeSite(name)] of server/caddy.ts: nothing is sent when the sync
    script is installed ([USE_SYNC_SCRIPT]); otherwise the admin API is
    used. *)
Definition removeSite (USE_SYNC_SCRIPT : bool) (status : Z) : completion :=
  if USE_SYNC_SCRIPT then Returned else removeSiteViaApi status.

(** A request sent to the Caddy admin API: [DELETE /id/{id}], or a
    [POST] of a route to [/config/apps/http/servers/srv0/routes], given by
    its ["@id"], the [root] of its [file_server] handler and the basic-auth
    account [(user, hash)] of its [authentication] handler, if any. *)
Inductive api_request :=
  | DeleteRoute (id : string)
  | PostRoute (id : string) (root : string) (auth : option (string * string)).

(** The ["@id"] of a site's route, [`sf-${name}`]. *)
Definition route_id (name : string) : string := "sf-" +:+ name.

(** [addSiteViaApi(name, fsPath, auth)], given the status of the response
    to its [POST]: it throws when [!res.ok]. *)
Definition addSiteViaApi (name fsPath : string) (auth : option (string * string))
    (postStatus : Z) : completion * list api_request :=
  (if ok postStatus then Returned else Threw, [PostRoute (route_id name) fsPath auth]).

(** [addSite(name, fsPath, auth)] of server/caddy.ts. *)
Definition addSite (USE_SYNC_SCRIPT : bool) (name fsPath : string)
    (auth : option (string * string)) (postStatus : Z) : completion * list api_request :=
  if USE_SYNC_SCRIPT then (Returned, []) else addSiteViaApi name fsPath auth postStatus.

End Caddy.

(* ================================================================= *)
(** ** The upload and delete-site handlers (server/index.ts) *)
(* ================================================================= *)

Module Handlers.
Import SafePath Ledger.
Local Open Scope Z_scope.

(** The file system as the handlers observe it: the paths of regular
    files and of directories. *)
Record fs := { files : gset string; dirs : gset string }.

(** [existsSync(p)]. *)
Definition existsSync (d : fs) (p : string) : bool :=
  bool_decide (p ∈ files d) || bool_decide (p ∈ dirs d).

(** The directories [mkdirSync(dirname(t), { recursive: true })] ensures
    for an absolute normalized path [t]: its parent and every ancestor. *)
Definition dir_chain (t : string) : list string :=
  let segs := List.filter (fun a => negb (String.eqb a EmptyString)) (split_sep t) in
  map (fun k => "/" +:+ join_sep (take k segs)) (seq 0 (length segs)).

(** Server state: the [sites] table and the disk. *)
Record state := { db : sites; disk : fs }.

(** The multipart [file] field. *)
Record file := { file_name : string; file_size : Z }.

(** The validated query of the upload route. *)
Record upload_query := { query_path : option string; query_overwrite : option string }.

(** Where a handler is when it yields at its next [await] after the checks:
    it has answered, or it is about to write [target]. *)
Inductive phase :=
  | Respond (status : Z)
  | Write (target : string).

(** The upload handler up to the write: the site lookup, the file checks,
    [safePath], the existence test and [mkdirSync] (which throws, hence
    500, when an ancestor is a regular file).  [maxFileSize] is
    [MAX_FILE_SIZE]. *)
Definition upload_check (maxFileSize : Z) (cwd name : string) (f : option file)
    (q : upload_query) (s : state) : phase * state :=
  match db s !! name with
  | None => (Respond 404, s)
  | Some site =>
      match f with
      | None => (Respond 400, s)
      | Some fl =>
          if decide (maxFileSize < file_size fl) then (Respond 413, s)
          else
            let subPath := default EmptyString (query_path q) in
            let relativePath := join [subPath; file_name fl] in
            match safePath cwd (site_path site) relativePath with
            | None => (Respond 400, s)
            | Some targetPath =>
                if existsSync (disk s) targetPath
                   && negb (bool_decide (query_overwrite q = Some "true"))
                then (Respond 409, s)
                else
                  let chain := dir_chain targetPath in
                  if existsb (fun d => bool_decide (d ∈ files (disk s))) chain
                  then (Respond 500, s)
                  else (Write targetPath,
                        {| db := db s;
                           disk := {| files := files (disk s);
                                      dirs := list_to_set chain ∪ dirs (disk s) |} |})
            end
      end
  end.

(** [await Bun.write(targetPath, buffer)]: fails on a directory. *)
Definition upload_commit (target : string) (s : state) : option state :=
  if bool_decide (target ∈ dirs (disk s)) then None
  else Some {| db := db s;
               disk := {| files := {[target]} ∪ files (disk s); dirs := dirs (disk s) |} |}.

(** The whole upload handler run without interruption: the status it
    answers with and the state after it. *)
Definition upload (maxFileSize : Z) (cwd name : string) (f : option file)
    (q : upload_query) (s : state) : Z * state :=
  match upload_check maxFileSize cwd name f q s with
  | (Respond st, s') => (st, s')
  | (Write t, s') =>
      match upload_commit t s' with
      | Some s'' => (201, s'')
      | None => (500, s')
      end
  end.

(** Two uploads whose checks both run before either writes (each yields at
    [await file.arrayBuffer()] between its checks and its write). *)
Definition upload_interleaved (maxFileSize : Z) (cwd : string)
    (name1 : string) (f1 : option file) (q1 : upload_query)
    (name2 : string) (f2 : option file) (q2 : upload_query) (s : state)
    : Z * Z * state :=
  let '(p1, s1) := upload_check maxFileSize cwd name1 f1 q1 s in
  let '(p2, s2) := upload_check maxFileSize cwd name2 f2 q2 s1 in
  let '(st1, s3) :=
    match p1 with
    | Respond st => (st, s2)
    | Write t => match upload_commit t s2 with Some s' => (201, s') | None => (500, s2) end
    end in
  let '(st2, s4) :=
    match p2 with
    | Respond st => (st, s3)
    | Write t => match upload_commit t s3 with Some s' => (201, s') | None => (500, s3) end
    end in
  (st1, st2, s4).

(** [p] is [root] or lies under it. *)
Definition under (root p : string) : bool :=
  String.eqb p root || starts_with p (root +:+ "/").

(** [rmSync(path, { recursive: true, force: true })]. *)
Definition rmSync (path : string) (d : fs) : fs :=
  {| files := filter (fun p => under path p = false) (files d);
     dirs := filter (fun p => under path p = false) (dirs d) |}.

(** The delete-site handler: look the site up, [await
    caddy.removeSite(name)], then remove its directory ([site.path], a
    relative path resolved against [cwd] by [rmSync]) and its row.  An
    exception thrown by [removeSite] ends the handler (status 500) before
    the later steps. *)
Definition deleteSite (USE_SYNC_SCRIPT : bool) (caddyStatus : Z) (cwd name : string)
    (s : state) : Z * state :=
  match db s !! name with
  | None => (404, s)
  | Some site =>
      match Caddy.removeSite USE_SYNC_SCRIPT caddyStatus with
      | Caddy.Threw => (500, s)
      | Caddy.Returned =>
          (200, {| db := delete name (db s); disk := rmSync (resolve cwd [site_path site]) (disk s) |})
      end
  end.

(** The delete-file handler: the site lookup, [safePath], the existence
    test and [unlinkSync] (which throws, hence 500, on a directory). *)
Definition deleteFile (cwd name filePath : string) (s : state) : Z * state :=
  match db s !! name with
  | None => (404, s)
  | Some site =>
      match safePath cwd (site_path site) filePath with
      | None => (400, s)
      | Some fullPath =>
          if negb (existsSync (disk s) fullPath) then (404, s)
          else if bool_decide (fullPath ∈ dirs (disk s)) then (500, s)
          else (200, {| db := db s;
                        disk := {| files := files (disk s) ∖ {[fullPath]};
                                   dirs := dirs (disk s) |} |})
      end
  end.

(** [getSitePath(name)] = [join(SITES_ROOT, name)]. *)
Definition getSitePath (SITES_ROOT name : string) : string := join [SITES_ROOT; name].

(** The row [insertSite] adds: the column defaults [quota_bytes =
    104857600] and [used_bytes = 0]. *)
Definition new_site (sitePath : string) : site :=
  {| site_path := sitePath; quota_bytes := 104857600; used_bytes := 0 |}.

(** The create-site handler: the existence check (409), [mkdirSync(sitePath,
    { recursive: true })] on the path resolved against [cwd] (which throws,
    hence 500, when it or an ancestor is a regular file), [await
    caddy.addSite(...)] whose exception removes the site directory and
    answers 500, then [insertSite] and 201.  [auth] is the account
    [(user, bcrypt hash)] when the body carries one. *)
Definition createSite (USE_SYNC_SCRIPT : bool) (postStatus : Z) (SITES_ROOT cwd name : string)
    (auth : option (string * string)) (s : state) : Z * state * list Caddy.api_request :=
  let sitePath := getSitePath SITES_ROOT name in
  match db s !! name with
  | Some _ => (409, s, [])
  | None =>
      let abs := resolve cwd [sitePath] in
      let chain := dir_chain abs ++ [abs] in
      if existsb (fun d => bool_decide (d ∈ files (disk s))) chain then (500, s, [])
      else
        let made := {| files := files (disk s); dirs := list_to_set chain ∪ dirs (disk s) |} in
        match Caddy.addSite USE_SYNC_SCRIPT name sitePath auth postStatus with
        | (Caddy.Threw, rq) => (500, {| db := db s; disk := rmSync abs made |}, rq)
        | (Caddy.Returned, rq) =>
            (201, {| db := <[name := new_site sitePath]> (db s); disk := made |}, rq)
        end
  end.

(** The row of [name] with its quota columns replaced. *)
Definition set_quota (name : string) (quota used : Z) (d : sites) : sites :=
  match d !! name with
  | Some st => <[name := {| site_path := site_path st; quota_bytes := quota;
                            used_bytes := used |}]> d
  | None => d
  end.

(** A freshly created site ["s"] with quota [quota] and nothing used. *)
Definition fresh_state (quota : Z) : state :=
  {| db := <["s" := {| site_path := "/var/sites/s"; quota_bytes := quota;
                       used_bytes := 0 |}]> ∅;
     disk := {| files := ∅; dirs := ∅ |} |}.

Definition no_query : upload_query := {| query_path := None; query_overwrite := None |}.

Definition file_a (size : Z) : file := {| file_name := "a.bin"; file_size := size |}.

Definition file_b (size : Z) : file := {| file_name := "b.bin"; file_size := size |}.

(** Site ["s"] on a host that also holds [/etc/passwd]. *)
Definition host_state : state :=
  {| db := db (fresh_state 1000); disk := {| files := {["/etc/passwd"]}; dirs := ∅ |} |}.

Definition traversal_query : upload_query :=
  {| query_path := Some "../../../etc"; query_overwrite := Some "true" |}.

Definition passwd_file : file := {| file_name := "passwd"; file_size := 10 |}.

Definition docs_query : upload_query :=
  {| query_path := Some "docs"; query_overwrite := None |}.

End Handlers.

(* ================================================================= *)
(** ** Facts about the path primitives *)
(* ================================================================= *)

Module SafePathFacts.
Import SafePath.

Lemma append_cons (c : ascii) (s t : string) :
  String c s +:+ t = String c (s +:+ t).
Proof. reflexivity. Qed.

Lemma append_empty_l (s : string) : EmptyString +:+ s = s.
Proof. reflexivity. Qed.

Lemma append_nil_r (s : string) : s +:+ EmptyString = s.
Proof. induction s as [|c s IH]; [done|by rewrite append_cons, IH]. Qed.

Lemma append_assoc' (a b c : string) : (a +:+ b) +:+ c = a +:+ (b +:+ c).
Proof. induction a as [|x a IH]; [done|by rewrite !append_cons, IH]. Qed.

Lemma starts_with_spec (s p : string) :
  starts_with s p = true <-> exists r, s = p +:+ r.
Proof.
  revert s; induction p as [|c p IH]; intros s.
  - split; [intros _; by exists s|intros _; by destruct s].
  - destruct s as [|d s]; simpl.
    + split; [done|]. intros [r Hr]. discriminate.
    + rewrite andb_true_iff, IH. split.
      * intros [Hcd [r ->]]. apply Ascii.eqb_eq in Hcd as ->. by exists r.
      * intros [r Hr]. rewrite append_cons in Hr. injection Hr as -> ->.
        split; [apply Ascii.eqb_refl|by exists r].
Qed.

(** A component is non-empty and separator-free. *)
Definition good (x : string) : Prop := x <> EmptyString /\ no_sep x = true.

Lemma no_sep_split (x r : string) : no_sep (x +:+ sep +:+ r) = false.
Proof. induction x as [|c x IH]; simpl; [done|]. by rewrite IH, andb_false_r. Qed.

(** A separator-free string never equals one containing a separator. *)
Lemma no_sep_neq (x y r : string) :
  no_sep y = true -> y <> x +:+ sep +:+ r.
Proof. intros Hy ->. by rewrite no_sep_split in Hy. Qed.

(** Cutting at the first separator is unique. *)
Lemma cut_first_sep (x y r t : string) :
  no_sep x = true -> no_sep y = true ->
  x +:+ sep +:+ r = y +:+ sep +:+ t -> x = y /\ r = t.
Proof.
  revert y; induction x as [|c x IH]; intros y Hx Hy H; destruct y as [|d y].
  - by injection H.
  - simpl in H, Hy. injection H as Hc _. subst d.
    by rewrite andb_false_l in Hy.
  - simpl in H, Hx. injection H as Hc _. subst c.
    by rewrite andb_false_l in Hx.
  - simpl in H, Hx, Hy. injection H as -> H.
    apply andb_true_iff in Hx as [_ Hx]. apply andb_true_iff in Hy as [_ Hy].
    destruct (IH y Hx Hy H) as [-> ->]. done.
Qed.

Lemma join_sep_cons (x : string) (xs : list string) :
  xs <> [] -> join_sep (x :: xs) = x +:+ sep +:+ join_sep xs.
Proof. destruct xs; [done|reflexivity]. Qed.

Lemma join_sep_app (l1 l2 : list string) :
  l1 <> [] -> l2 <> [] -> join_sep (l1 ++ l2) = join_sep l1 +:+ sep +:+ join_sep l2.
Proof.
  intros H1 H2. induction l1 as [|x xs IH]; [done|].
  destruct xs as [|y ys].
  - simpl app. by rewrite join_sep_cons.
  - rewrite <- app_comm_cons, join_sep_cons by (simpl; done).
    rewrite IH by done. rewrite (join_sep_cons x) by done.
    unfold sep. by rewrite !append_assoc'.
Qed.

Lemma join_sep_nonempty (l : list string) :
  Forall good l -> l <> [] -> join_sep l <> EmptyString.
Proof.
  intros Hl Hne. destruct l as [|x xs]; [done|].
  inversion Hl as [|? ? [Hx _] _]; subst.
  destruct xs as [|y ys]; simpl; [done|].
  destruct x; simpl; done.
Qed.

(** [join_sep] is injective on lists of components. *)
Lemma join_sep_inj (l1 l2 : list string) :
  Forall good l1 -> Forall good l2 -> join_sep l1 = join_sep l2 -> l1 = l2.
Proof.
  revert l2; induction l1 as [|x xs IH]; intros l2 H1 H2 Heq.
  - destruct l2 as [|y ys]; [done|].
    exfalso. apply (join_sep_nonempty (y :: ys) H2); done.
  - destruct l2 as [|y ys].
    + exfalso. apply (join_sep_nonempty (x :: xs) H1); done.
    + inversion H1 as [|? ? [Hx0 Hx] Hxs]; subst.
      inversion H2 as [|? ? [Hy0 Hy] Hys]; subst.
      destruct xs as [|x' xs]; destruct ys as [|y' ys].
      * simpl in Heq. by subst.
      * rewrite (join_sep_cons y) in Heq by done.
        exfalso. exact (no_sep_neq _ _ _ Hx Heq).
      * rewrite (join_sep_cons x) in Heq by done.
        exfalso. exact (no_sep_neq _ _ _ Hy (eq_sym Heq)).
      * rewrite (join_sep_cons x), (join_sep_cons y) in Heq by done.
        destruct (cut_first_sep _ _ _ _ Hx Hy Heq) as [-> Ht].
        f_equal. by apply IH.
Qed.

Lemma sep_append_nonempty (x r : string) : x +:+ sep +:+ r <> EmptyString.
Proof. destruct x; [discriminate|rewrite append_cons; discriminate]. Qed.

Lemma join_sep_cons_sep (b : string) (bs : list string) (r : string) :
  exists t, join_sep (b :: bs) +:+ sep +:+ r = b +:+ sep +:+ t.
Proof.
  destruct bs as [|b' bs].
  - by exists r.
  - rewrite join_sep_cons by done. rewrite !append_assoc'. eauto.
Qed.

(** The joined components of [SP] extend those of [SB] by a separator
    exactly when [SP] extends [SB] by further components. *)
Lemma join_sep_extends (SB SP : list string) (r : string) :
  Forall good SB -> Forall good SP -> SB <> [] ->
  join_sep SP = join_sep SB +:+ sep +:+ r ->
  exists SR, SR <> [] /\ SP = SB ++ SR /\ r = join_sep SR.
Proof.
  revert SP r; induction SB as [|b bs IH]; intros SP r HB HP Hne Heq; [done|].
  inversion HB as [|? ? [Hb0 Hb] Hbs]; subst.
  destruct (join_sep_cons_sep b bs r) as [t Ht].
  destruct SP as [|y ys].
  { exfalso. rewrite Ht in Heq. exact (sep_append_nonempty _ _ (eq_sym Heq)). }
  inversion HP as [|? ? [Hy0 Hy] Hys]; subst.
  destruct ys as [|y' ys].
  { exfalso. rewrite Ht in Heq. exact (no_sep_neq _ _ _ Hy Heq). }
  rewrite join_sep_cons in Heq by done.
  destruct bs as [|b' bs].
  - destruct (cut_first_sep _ _ _ _ Hy Hb Heq) as [-> Hr].
    exists (y' :: ys). split; [done|]. by rewrite <- Hr.
  - rewrite (join_sep_cons b) in Heq by done.
    rewrite !append_assoc' in Heq.
    destruct (cut_first_sep _ _ _ _ Hy Hb Heq) as [-> Hr].
    destruct (IH (y' :: ys) r Hbs Hys ltac:(done) Hr) as (SR & HSR & HSP & ->).
    exists SR. split; [done|]. split; [|done]. by rewrite HSP.
Qed.

Lemma slash_append (x : string) : "/" +:+ x = String sep_char x.
Proof. reflexivity. Qed.

Lemma split_sep_no_sep (s : string) :
  Forall (fun x => no_sep x = true) (split_sep s).
Proof.
  induction s as [|c s IH]; simpl; [by repeat constructor|].
  destruct (is_sep c) eqn:Hc; [by constructor|].
  destruct (split_sep s) as [|p ps]; inversion IH; subst; repeat constructor; simpl;
    rewrite ?Hc; by try rewrite H1.
Qed.

(** Without [allowAboveRoot], [normalizeString] only keeps components. *)
Lemma fold_norm_good (segs stack : list string) :
  Forall (fun x => no_sep x = true) segs -> Forall good stack ->
  Forall good (fold_left (norm_step false) segs stack).
Proof.
  revert stack; induction segs as [|seg segs IH]; intros stack Hsegs Hstack;
    simpl; [done|].
  inversion Hsegs as [|? ? Hseg Hrest]; subst.
  apply IH; [done|]. unfold norm_step.
  destruct (String.eqb seg EmptyString) eqn:He; [done|].
  destruct (String.eqb seg ".") eqn:Hd; [done|]. simpl.
  destruct (String.eqb seg "..") eqn:Hdd.
  - destruct stack as [|top rest]; [done|].
    destruct (String.eqb top ".."); [done|]. by inversion Hstack.
  - constructor; [|done]. split; [|done].
    intros ->. by rewrite String.eqb_refl in He.
Qed.

Lemma norm_segments_good (path : string) : Forall good (norm_segments path false).
Proof.
  unfold norm_segments. apply Forall_rev, fold_norm_good; [apply split_sep_no_sep|].
  constructor.
Qed.

Lemma resolve_loop_absolute (cwd : string) (l : list string) (acc : string) :
  is_absolute cwd = true -> snd (resolve_loop (l ++ [cwd]) acc) = true.
Proof.
  intros Hcwd. revert acc; induction l as [|p ps IH]; intros acc; simpl.
  - destruct cwd as [|c cwd]; [done|]. simpl in Hcwd |- *. by rewrite Hcwd.
  - destruct (String.eqb p EmptyString); [apply IH|].
    destruct (is_absolute p); [done|apply IH].
Qed.

(** With an absolute working directory every resolution is absolute. *)
Lemma resolve_absolute (cwd : string) (args : list string) :
  is_absolute cwd = true ->
  resolve cwd args = "/" +:+ join_sep (resolved_segments cwd args).
Proof.
  intros Hcwd. unfold resolve, resolved_segments, normalizeString.
  pose proof (resolve_loop_absolute cwd (rev args) EmptyString Hcwd) as Habs.
  destruct (resolve_loop (rev args ++ [cwd]) EmptyString) as [rp b].
  simpl in Habs. subst b. reflexivity.
Qed.

Lemma seg_prefix_spec (l1 l2 : list string) :
  seg_prefix l1 l2 = true <-> exists l, l2 = l1 ++ l.
Proof.
  revert l2; induction l1 as [|x xs IH]; intros l2; simpl.
  - split; [intros _; by exists l2|done].
  - destruct l2 as [|y ys].
    + split; [done|]. by intros [l ?].
    + rewrite andb_true_iff, String.eqb_eq, IH. split.
      * intros [-> [l ->]]. by exists l.
      * intros [l Hl]. injection Hl as -> ->. eauto.
Qed.

(** The containment test of [safePath] on absolute resolutions, read on
    components: [resolvedPath] starts with [resolvedBase + sep] exactly
    when its components extend those of the root. *)
Lemma starts_with_root_sep (SB SP : list string) :
  Forall good SB -> Forall good SP -> SB <> [] ->
  starts_with ("/" +:+ join_sep SP) (("/" +:+ join_sep SB) +:+ sep) = true <->
  exists SR, SR <> [] /\ SP = SB ++ SR.
Proof.
  intros HB HP Hne. rewrite starts_with_spec. split.
  - intros [r Hr]. rewrite !slash_append, !append_cons in Hr.
    injection Hr as Hr. rewrite append_assoc' in Hr.
    destruct (join_sep_extends SB SP r HB HP Hne Hr) as (SR & HSR & HSP & _).
    eauto.
  - intros (SR & HSR & ->). exists (join_sep SR).
    rewrite join_sep_app by done. rewrite !slash_append, !append_cons.
    by rewrite append_assoc'.
Qed.

Lemma root_eq_iff (SB SP : list string) :
  Forall good SB -> Forall good SP ->
  String.eqb ("/" +:+ join_sep SP) ("/" +:+ join_sep SB) = true <-> SP = SB.
Proof.
  intros HB HP. rewrite String.eqb_eq, !slash_append. split.
  - intros H. injection H as H. by apply join_sep_inj.
  - by intros ->.
Qed.

(** [safePath] decided on components: the general part of C1. *)
Lemma safePath_components (cwd base userPath : string) :
  is_absolute cwd = true -> resolve cwd [base] <> "/" ->
  safePath cwd base userPath =
    (if inside cwd base userPath
     then Some (resolve cwd [base; normalize userPath]) else None)
  /\ (inside cwd base userPath = true ->
      resolve cwd [base; normalize userPath] = resolve cwd [base] \/
      exists r, r <> EmptyString /\
        resolve cwd [base; normalize userPath] = resolve cwd [base] +:+ sep +:+ r).
Proof.
  intros Hcwd Hroot. unfold safePath, inside. cbv zeta.
  rewrite !(resolve_absolute cwd) by done. rewrite (resolve_absolute cwd) in Hroot by done.
  set (SB := resolved_segments cwd [base]) in *.
  set (SP := resolved_segments cwd [base; normalize userPath]).
  assert (HB : Forall good SB) by apply norm_segments_good.
  assert (HP : Forall good SP) by apply norm_segments_good.
  assert (Hne : SB <> []) by (intros Hnil; apply Hroot; by rewrite Hnil).
  destruct (seg_prefix SB SP) eqn:Hin.
  - apply seg_prefix_spec in Hin as [L HL].
    destruct L as [|l L].
    + rewrite app_nil_r in HL. rewrite HL.
      rewrite String.eqb_refl, andb_false_r. split; [done|]. by left.
    + assert (Hst : starts_with ("/" +:+ join_sep SP) (("/" +:+ join_sep SB) +:+ sep) = true).
      { apply starts_with_root_sep; [done|done|done|]. exists (l :: L). by split. }
      rewrite Hst. simpl. split; [done|]. intros _. right.
      exists (join_sep (l :: L)). split.
      * apply join_sep_nonempty; [|done]. rewrite HL in HP.
        by apply Forall_app in HP as [_ ?].
      * by rewrite HL, join_sep_app.
  - destruct (starts_with ("/" +:+ join_sep SP) (("/" +:+ join_sep SB) +:+ sep)) eqn:Hst.
    { apply starts_with_root_sep in Hst as (SR & _ & HSR); [|done|done|done].
      assert (seg_prefix SB SP = true) by (apply seg_prefix_spec; eauto).
      congruence. }
    destruct (String.eqb ("/" +:+ join_sep SP) ("/" +:+ join_sep SB)) eqn:Heq.
    { apply root_eq_iff in Heq; [|done|done].
      assert (seg_prefix SB SP = true).
      { apply seg_prefix_spec. exists []. by rewrite app_nil_r. }
      congruence. }
    split; [done|]. done.
Qed.

Lemma join_sep_head (x : string) (xs : list string) :
  exists t, join_sep (x :: xs) = x +:+ t.
Proof.
  destruct xs as [|y ys].
  - exists EmptyString. by rewrite append_nil_r.
  - by exists (sep +:+ join_sep (y :: ys)).
Qed.

(** With an absolute working directory no resolution starts with ["//"]:
    it is ["/"] followed by components, the first of them non-empty and
    separator-free. *)
Lemma resolve_no_double_sep (cwd : string) (args : list string) :
  is_absolute cwd = true -> starts_with (resolve cwd args) ("/" +:+ sep) = false.
Proof.
  intros Hcwd. rewrite resolve_absolute by done.
  pose proof (norm_segments_good (fst (resolve_loop (rev args ++ [cwd]) EmptyString))) as Hg.
  fold (resolved_segments cwd args) in Hg.
  destruct (resolved_segments cwd args) as [|x xs]; [reflexivity|].
  apply Forall_cons in Hg as [[Hx0 Hx] _].
  destruct (join_sep_head x xs) as [t ->].
  destruct x as [|c x]; [done|].
  cbn [no_sep] in Hx. apply andb_true_iff in Hx as [Hc _]. apply negb_true_iff in Hc.
  rewrite (append_cons c x t), slash_append.
  change ("/" +:+ sep) with (String sep_char (String sep_char EmptyString)).
  cbn [starts_with]. rewrite Ascii.eqb_refl. cbn [andb].
  destruct (Ascii.eqb_spec sep_char c) as [<-|_]; [done|reflexivity].
Qed.

(** When the root resolves to ["/"], [safePath] accepts exactly the user
    paths that resolve to ["/"] itself. *)
Lemma safePath_root_slash (cwd base userPath : string) :
  is_absolute cwd = true -> resolve cwd [base] = "/" ->
  safePath cwd base userPath =
    (if String.eqb (resolve cwd [base; normalize userPath]) "/" then Some "/" else None).
Proof.
  intros Hcwd Hroot. unfold safePath. cbv zeta. rewrite Hroot.
  rewrite resolve_no_double_sep by done. cbn [negb andb].
  destruct (String.eqb (resolve cwd [base; normalize userPath]) "/") eqn:E; [|reflexivity].
  apply String.eqb_eq in E. by rewrite E.
Qed.

(** C1 (amended).  Let the working directory be absolute.
    - If the root does not resolve to the filesystem root ["/"], [safePath]
      returns the resolved absolute path when the normalized user path lies
      inside the root (its components extend the root's), and [null]
      otherwise; a returned path equals the resolved root or is the root,
      a separator and a non-empty rest.
    - If the root resolves to ["/"], [safePath] returns ["/"] when the user
      path resolves to ["/"] itself, and [null] for every other user path.
    - The spec's four concrete cases hold. *)
Theorem safePath_confines_nonroot (cwd base userPath : string) :
  is_absolute cwd = true ->
  (resolve cwd [base] <> "/" ->
   safePath cwd base userPath =
     (if inside cwd base userPath
      then Some (resolve cwd [base; normalize userPath]) else None)
   /\ (inside cwd base userPath = true ->
       resolve cwd [base; normalize userPath] = resolve cwd [base] \/
       exists r, r <> EmptyString /\
         resolve cwd [base; normalize userPath] = resolve cwd [base] +:+ sep +:+ r))
  /\ (resolve cwd [base] = "/" ->
      safePath cwd base userPath =
        (if String.eqb (resolve cwd [base; normalize userPath]) "/"
         then Some "/" else None))
  /\ safePath cwd "/var/sites/s" "../etc/passwd" = None
  /\ safePath cwd "/var/sites/s" "/etc/passwd" = None
  /\ safePath cwd "/var/sites/s" "a/b/../c/file.txt" = Some "/var/sites/s/a/c/file.txt"
  /\ safePath cwd "/var/sites/s" EmptyString = Some "/var/sites/s".
Proof.
  intros Hcwd. split; [intros Hroot; by apply safePath_components|].
  split; [intros Hroot; by apply safePath_root_slash|].
  repeat split; reflexivity.
Qed.

Lemma safePath_confines_nonroot_witness :
  is_absolute "/srv" = true /\ resolve "/srv" ["/var/sites/s"] <> "/" /\
  safePath "/srv" "/var/sites/s" "a/b/../c/file.txt"
    = Some "/var/sites/s/a/c/file.txt" /\
  safePath "/srv" "/" ".." = Some "/" /\ safePath "/srv" "/" "etc" = None.
Proof.
  split; [reflexivity|]. split; [discriminate|].
  destruct (safePath_confines_nonroot "/srv" "/var/sites/s" "a/b/../c/file.txt"
              eq_refl) as [Hnr _].
  destruct (Hnr ltac:(discriminate)) as [H _].
  rewrite H. split; [reflexivity|].
  destruct (safePath_confines_nonroot "/srv" "/" ".." eq_refl) as [_ [H1 _]].
  destruct (safePath_confines_nonroot "/srv" "/" "etc" eq_refl) as [_ [H2 _]].
  rewrite (H1 eq_refl), (H2 eq_refl). split; reflexivity.
Defined.

(** C1 counterexample: with the root ["/"] the check requires the prefix
    ["//"], so a path inside the root is rejected. *)
Lemma safePath_root_slash_rejects_inside :
  inside "/srv" "/" "etc" = true /\ safePath "/srv" "/" "etc" = None.
Proof. split; reflexivity. Qed.

(** C5 counterexample: a user path with an embedded NUL is accepted. *)
Lemma safePath_accepts_nul :
  contains_nul ("file.txt" +:+ String nul EmptyString) = true /\
  safePath "/srv" "/var/sites/s" ("file.txt" +:+ String nul EmptyString)
    = Some ("/var/sites/s/file.txt" +:+ String nul EmptyString).
Proof. split; reflexivity. Qed.

End SafePathFacts.

(* ================================================================= *)
(** ** Facts about the rate limiter *)
(* ================================================================= *)

Module RateLimitFacts.
Import RateLimit.
Local Open Scope Z_scope.

Lemma middleware_unfold (windowMs maxRequests : Z) (r : request) (now : Z) (s : store) :
  middleware windowMs maxRequests r now s =
  let recent := recent_of windowMs now s (identity_key r) in
  if decide (maxRequests <= Z.of_nat (length recent)) then
    let resetTime := (fun t => ceil_div (t + windowMs - now) 1000) <$> head recent in
    (s, Rejected 429
       [("X-RateLimit-Limit", Some maxRequests); ("X-RateLimit-Remaining", Some 0);
        ("X-RateLimit-Reset", resetTime); ("Retry-After", resetTime)] resetTime)
  else
    (<[identity_key r := recent ++ [now]]> s,
     NextCalled
       [("X-RateLimit-Limit", Some maxRequests);
        ("X-RateLimit-Remaining", Some (maxRequests - Z.of_nat (length (recent ++ [now]))));
        ("X-RateLimit-Reset", Some (ceil_div windowMs 1000))]).
Proof. reflexivity. Qed.

(** C8.  A call answered with 429 leaves the store exactly as it was:
    the rejected attempt is not recorded. *)
Theorem rejected_call_not_recorded (cfg : config) (envWindow envMax : Z)
    (r : request) (now : Z) (s s' : store) (st : Z) (hs : list (string * hval))
    (ra : hval) :
  rateLimit cfg envWindow envMax r now s = (s', Rejected st hs ra) -> s' = s.
Proof.
  unfold rateLimit. rewrite middleware_unfold. cbv zeta.
  case_decide; intros H'; inversion H'; done.
Qed.

Lemma rejected_call_not_recorded_witness :
  rateLimit example_config 60000 100 example_request 30 example_full_store
    = (example_full_store, Rejected 429 example_limited_headers (Some 60))
  /\ example_full_store = example_full_store.
Proof.
  split; [vm_compute; reflexivity|].
  exact (rejected_call_not_recorded example_config 60000 100 example_request 30
           example_full_store example_full_store 429 example_limited_headers (Some 60)
           ltac:(vm_compute; reflexivity)).
Defined.

Lemma retained_cons (windowMs now t : Z) (ts : list Z) :
  retained windowMs now (t :: ts) =
  if decide (now - t < windowMs) then t :: retained windowMs now ts
  else retained windowMs now ts.
Proof. unfold retained. by rewrite filter_cons. Qed.

(** Below capacity the call is recorded and [next()] is reached. *)
Lemma middleware_next (windowMs maxRequests : Z) (r : request) (now : Z) (s : store) :
  Z.of_nat (length (recent_of windowMs now s (identity_key r))) < maxRequests ->
  exists hs, middleware windowMs maxRequests r now s =
    (<[identity_key r := recent_of windowMs now s (identity_key r) ++ [now]]> s,
     NextCalled hs).
Proof.
  intros H. rewrite middleware_unfold. cbv zeta.
  case_decide; [lia|]. eauto.
Qed.

(** At or above capacity the call is answered 429 and nothing changes. *)
Lemma middleware_limited (windowMs maxRequests : Z) (r : request) (now : Z) (s : store) :
  maxRequests <= Z.of_nat (length (recent_of windowMs now s (identity_key r))) ->
  exists hs ra, middleware windowMs maxRequests r now s = (s, Rejected 429 hs ra).
Proof.
  intros H. rewrite middleware_unfold. cbv zeta.
  case_decide; [|lia]. eauto.
Qed.

Lemma recent_of_insert (windowMs now : Z) (s : store) (k : string) (ts : list Z) :
  recent_of windowMs now (<[k := ts]> s) k = retained windowMs now ts.
Proof. unfold recent_of. by rewrite lookup_insert_eq. Qed.

Lemma retained_nil (windowMs now : Z) : retained windowMs now [] = [].
Proof. reflexivity. Qed.

(** C2.  With [maxRequests = 3] and [windowMs = 60000], three calls for a
    fresh identity key inside the window reach [next()], the fourth is
    answered 429, and a call more than [windowMs] after the first is
    admitted again. *)
Theorem window_three_admitted_fourth_limited (envWindow envMax : Z)
    (k : string) (r0 r1 r2 r3 r4 : request) (s0 : store) (t0 t1 t2 t3 t4 : Z) :
  identity_key r0 = k -> identity_key r1 = k -> identity_key r2 = k ->
  identity_key r3 = k -> identity_key r4 = k ->
  s0 !! k = None ->
  t0 <= t1 -> t1 <= t2 -> t2 <= t3 -> t3 < t0 + 60000 -> t0 + 60000 < t4 ->
  let call := rateLimit {| cfg_windowMs := Some 60000; cfg_maxRequests := Some 3 |}
                envWindow envMax in
  let s1 := (call r0 t0 s0).1 in
  let s2 := (call r1 t1 s1).1 in
  let s3 := (call r2 t2 s2).1 in
  let s4 := (call r3 t3 s3).1 in
  is_admitted (call r0 t0 s0).2 = true /\
  is_admitted (call r1 t1 s1).2 = true /\
  is_admitted (call r2 t2 s2).2 = true /\
  is_limited (call r3 t3 s3).2 = true /\
  is_admitted (call r4 t4 s4).2 = true.
Proof.
  intros H0 H1 H2 H3 H4 Hs0 Ht01 Ht12 Ht23 Ht3 Ht4.
  assert (E : rateLimit {| cfg_windowMs := Some 60000; cfg_maxRequests := Some 3 |}
                envWindow envMax = middleware 60000 3) by reflexivity.
  cbv zeta. rewrite E. clear E.
  assert (R0 : recent_of 60000 t0 s0 k = []) by (unfold recent_of; by rewrite Hs0).
  destruct (middleware_next 60000 3 r0 t0 s0) as [h1 ->].
  { rewrite H0, R0. simpl. lia. }
  cbn [fst snd]. rewrite !H0, R0. cbn [app].
  destruct (middleware_next 60000 3 r1 t1 (<[k := [t0]]> s0)) as [h2 ->].
  { rewrite H1, recent_of_insert, retained_cons. case_decide; simpl; lia. }
  cbn [fst snd]. rewrite !H1, recent_of_insert, retained_cons, retained_nil.
  case_decide; [|lia]. cbn [app]. rewrite insert_insert_eq.
  destruct (middleware_next 60000 3 r2 t2 (<[k := [t0; t1]]> s0)) as [h3 ->].
  { rewrite H2, recent_of_insert, !retained_cons.
    repeat case_decide; simpl; lia. }
  cbn [fst snd]. rewrite !H2, recent_of_insert, !retained_cons, retained_nil.
  do 2 (case_decide; [|lia]). cbn [app]. rewrite insert_insert_eq.
  destruct (middleware_limited 60000 3 r3 t3 (<[k := [t0; t1; t2]]> s0)) as (h4 & ra & ->).
  { rewrite H3, recent_of_insert, !retained_cons.
    do 3 (case_decide; [|lia]). simpl. lia. }
  cbn [fst snd].
  destruct (middleware_next 60000 3 r4 t4 (<[k := [t0; t1; t2]]> s0)) as [h5 ->].
  { rewrite H4, recent_of_insert, !retained_cons.
    case_decide; [lia|]. repeat case_decide; simpl; lia. }
  repeat split.
Qed.

Lemma window_three_admitted_fourth_limited_witness :
  let call := rateLimit {| cfg_windowMs := Some 60000; cfg_maxRequests := Some 3 |}
                60000 100 in
  let s1 := (call example_request 0 ∅).1 in
  let s2 := (call example_request 10 s1).1 in
  let s3 := (call example_request 20 s2).1 in
  let s4 := (call example_request 30 s3).1 in
  is_admitted (call example_request 0 ∅).2 = true /\
  is_admitted (call example_request 10 s1).2 = true /\
  is_admitted (call example_request 20 s2).2 = true /\
  is_limited (call example_request 30 s3).2 = true /\
  is_admitted (call example_request 60001 s4).2 = true.
Proof.
  apply (window_three_admitted_fourth_limited 60000 100 "Bearer k"
           example_request example_request example_request example_request
           example_request ∅ 0 10 20 30 60001); try reflexivity; lia.
Defined.

(** C6.  The identity key is the Authorization value when one is present,
    and otherwise the origin address ([x-forwarded-for], else
    [x-real-ip], else ["unknown"]).  Requests with the same key meet the
    same window: the middleware treats them identically; a call only
    touches the entry of its own key. *)
Theorem identity_key_credential_else_origin :
  (forall (r : request) (a : string),
      authorization r = Some a -> a <> EmptyString -> identity_key r = a) /\
  (forall r : request, no_credential r -> identity_key r = client_ip r) /\
  (forall (cfg : config) (envWindow envMax : Z) (r1 r2 : request) (now : Z) (s : store),
      identity_key r1 = identity_key r2 ->
      rateLimit cfg envWindow envMax r1 now s = rateLimit cfg envWindow envMax r2 now s) /\
  (forall (cfg : config) (envWindow envMax : Z) (r : request) (now : Z) (s : store)
          (k : string),
      k <> identity_key r -> (rateLimit cfg envWindow envMax r now s).1 !! k = s !! k).
Proof.
  split; [|split; [|split]].
  - intros r a Ha Hne. unfold identity_key, or_header. rewrite Ha.
    destruct (String.eqb a EmptyString) eqn:E; [|done].
    apply String.eqb_eq in E. contradiction.
  - intros r [Hr|Hr]; unfold identity_key, or_header; by rewrite Hr.
  - intros cfg ew em r1 r2 now s Hk. unfold rateLimit, middleware. by rewrite Hk.
  - intros cfg ew em r now s k Hk. unfold rateLimit. rewrite middleware_unfold. cbv zeta.
    case_decide; cbn [fst]; [done|]. by rewrite lookup_insert_ne.
Qed.

Lemma identity_key_credential_else_origin_witness :
  identity_key example_request = "Bearer k" /\
  identity_key anonymous_request = client_ip anonymous_request.
Proof.
  destruct identity_key_credential_else_origin as (H1 & H2 & _).
  split.
  - apply (H1 example_request "Bearer k"); [reflexivity|discriminate].
  - apply H2. left. reflexivity.
Defined.

(** *** The store invariant: sorted sequences, none in the future *)

Lemma retained_subset (windowMs now : Z) (ts : list Z) (x : Z) :
  x ∈ retained windowMs now ts -> x ∈ ts.
Proof. unfold retained. rewrite list_elem_of_filter. tauto. Qed.

Lemma retained_Forall (P : Z -> Prop) (windowMs now : Z) (ts : list Z) :
  Forall P ts -> Forall P (retained windowMs now ts).
Proof.
  rewrite !Forall_forall. intros H x Hx. apply H.
  by apply (retained_subset windowMs now).
Qed.

Lemma retained_sorted (windowMs now : Z) (ts : list Z) :
  StronglySorted Z.le ts -> StronglySorted Z.le (retained windowMs now ts).
Proof.
  induction ts as [|t ts IH]; intros Hs; [constructor|].
  apply StronglySorted_cons in Hs as [Hf Hs].
  rewrite retained_cons. case_decide; [|auto].
  apply StronglySorted_cons. split; [|auto].
  by apply retained_Forall.
Qed.

Lemma retained_bounded (windowMs now bound : Z) (ts : list Z) :
  Forall (fun t => t <= bound) ts ->
  Forall (fun t => t <= bound) (retained windowMs now ts).
Proof. apply retained_Forall. Qed.

Lemma store_ok_empty (now : Z) : store_ok now ∅.
Proof. apply map_Forall_empty. Qed.

Lemma store_ok_mono (n1 n2 : Z) (s : store) :
  n1 <= n2 -> store_ok n1 s -> store_ok n2 s.
Proof.
  intros Hle Hs. unfold store_ok. eapply map_Forall_impl; [exact Hs|].
  intros k ts [Hsort Hb]. split; [done|].
  eapply Forall_impl; [exact Hb|]. simpl. lia.
Qed.

Lemma recent_of_ok (windowMs now : Z) (s : store) (k : string) :
  store_ok now s ->
  StronglySorted Z.le (recent_of windowMs now s k) /\
  Forall (fun t => t <= now) (recent_of windowMs now s k).
Proof.
  intros Hs. unfold recent_of.
  destruct (s !! k) as [ts|] eqn:E; cbn [from_option id].
  - destruct (map_Forall_lookup_1 _ _ _ _ Hs E) as [Hsort Hb].
    split; [by apply retained_sorted | by apply retained_bounded].
  - split; constructor.
Qed.

Lemma middleware_store_ok (windowMs maxRequests : Z) (r : request) (now : Z) (s : store) :
  store_ok now s -> store_ok now (middleware windowMs maxRequests r now s).1.
Proof.
  intros Hs. rewrite middleware_unfold. cbv zeta.
  case_decide; cbn [fst]; [done|].
  destruct (recent_of_ok windowMs now s (identity_key r) Hs) as [Hsort Hb].
  apply map_Forall_insert_2; [|done]. split.
  - apply StronglySorted_app_2; [|done|repeat constructor].
    intros x1 x2 H1 H2. apply list_elem_of_singleton in H2. subst x2.
    rewrite Forall_forall in Hb. by apply Hb.
  - apply Forall_app. split; [done|]. repeat constructor. lia.
Qed.

Lemma sweep_store_ok (envWindow now bound : Z) (s : store) :
  store_ok bound s -> store_ok bound (sweep envWindow now s).
Proof.
  intros Hs. unfold store_ok. apply map_Forall_lookup_2.
  intros k ts Hk. unfold sweep in Hk.
  apply map_lookup_filter_Some in Hk as [Hk _].
  rewrite lookup_fmap in Hk.
  destruct (s !! k) as [ts0|] eqn:E; [|discriminate].
  injection Hk as <-.
  destruct (map_Forall_lookup_1 _ _ _ _ Hs E) as [Hsort Hb].
  split; [by apply retained_sorted | by apply retained_bounded].
Qed.

Lemma step_store_ok (envWindow envMax : Z) (e : event) (t : Z) (s : store) :
  t <= event_time e -> store_ok t s ->
  store_ok (event_time e) (step envWindow envMax s e).
Proof.
  intros Ht Hs. destruct e as [cfg r now|now|now]; cbn [event_time step] in *.
  - unfold rateLimit. apply middleware_store_ok. by apply (store_ok_mono t).
  - apply sweep_store_ok. by apply (store_ok_mono t).
  - apply store_ok_empty.
Qed.

Lemma run_store_ok (envWindow envMax : Z) (evs : list event) (t now : Z) (s : store) :
  times_nondecreasing evs ->
  Forall (fun e => t <= event_time e) evs ->
  Forall (fun e => event_time e <= now) evs ->
  t <= now -> store_ok t s ->
  store_ok now (run envWindow envMax evs s).
Proof.
  revert t s. induction evs as [|e evs IH]; intros t s Hmono Ht Hn Htn Hs.
  - by apply (store_ok_mono t).
  - destruct Hmono as [Hhead Hmono].
    apply Forall_cons in Ht as [Ht _]. apply Forall_cons in Hn as [He Hn].
    unfold run. cbn [fold_left]. fold (run envWindow envMax evs (step envWindow envMax s e)).
    apply (IH (event_time e)); auto.
    by apply (step_store_ok envWindow envMax e t).
Qed.

Lemma run_from_empty_ok (envWindow envMax : Z) (evs : list event) (now : Z) :
  times_nondecreasing evs ->
  Forall (fun e => event_time e <= now) evs ->
  store_ok now (run envWindow envMax evs ∅).
Proof.
  intros Hmono Hn. destruct evs as [|e rest].
  - apply store_ok_empty.
  - apply (run_store_ok envWindow envMax _ (event_time e)); auto.
    + destruct Hmono as [Hhead _]. apply Forall_cons. split; [lia|done].
    + by apply Forall_cons in Hn as [? _].
    + apply store_ok_empty.
Qed.

Lemma ceil_div_1000 (d : Z) : 1000 * (ceil_div d 1000 - 1) < d <= 1000 * ceil_div d 1000.
Proof.
  unfold ceil_div.
  pose proof (Z.div_mod (- d) 1000 ltac:(lia)).
  pose proof (Z.mod_pos_bound (- d) 1000 ltac:(lia)). lia.
Qed.

(** C7.  Along any history of calls, sweeps and clears with a clock that
    never runs backwards, a call answered 429 (with a positive limit)
    reports as [retryAfter], [Retry-After] and [X-RateLimit-Reset] the
    time in whole seconds, rounded up, until the oldest retained timestamp
    leaves the window: [ceil((oldest + windowMs - now) / 1000)]. *)
Theorem rejected_retry_after_oldest (cfg : config) (envWindow envMax : Z)
    (evs : list event) (r : request) (now : Z) (s' : store) (st : Z)
    (hs : list (string * hval)) (ra : hval) :
  times_nondecreasing evs ->
  Forall (fun e => event_time e <= now) evs ->
  0 < or_number (cfg_maxRequests cfg) envMax ->
  rateLimit cfg envWindow envMax r now (run envWindow envMax evs ∅) = (s', Rejected st hs ra) ->
  exists oldest c,
    let windowMs := or_number (cfg_windowMs cfg) envWindow in
    let recent := recent_of windowMs now (run envWindow envMax evs ∅) (identity_key r) in
    oldest ∈ recent /\ Forall (fun t => oldest <= t) recent /\
    ra = Some c /\ c = ceil_div (oldest + windowMs - now) 1000 /\
    1000 * (c - 1) < oldest + windowMs - now <= 1000 * c /\
    header_value "Retry-After" hs = Some ra /\
    header_value "X-RateLimit-Reset" hs = Some ra.
Proof.
  intros Hmono Hn Hpos.
  pose proof (run_from_empty_ok envWindow envMax evs now Hmono Hn) as Hok.
  set (s := run envWindow envMax evs ∅) in *.
  set (w := or_number (cfg_windowMs cfg) envWindow).
  set (m := or_number (cfg_maxRequests cfg) envMax) in *.
  destruct (recent_of_ok w now s (identity_key r) Hok) as [Hsort _].
  change (rateLimit cfg envWindow envMax) with (middleware w m). rewrite middleware_unfold. cbv zeta.
  case_decide as Hcap; [|discriminate].
  destruct (recent_of w now s (identity_key r)) as [|t0 rest] eqn:Er.
  { cbn in Hcap. lia. }
  intros Heq. injection Heq as <- <- <- <-.
  apply StronglySorted_cons in Hsort as [Hf _].
  exists t0, (ceil_div (t0 + w - now) 1000). cbv zeta.
  split; [left|]. split; [constructor; [lia|exact Hf]|].
  split; [reflexivity|]. split; [reflexivity|].
  split; [apply ceil_div_1000|]. split; reflexivity.
Qed.

Lemma rejected_retry_after_oldest_witness :
  exists oldest c,
    let windowMs := or_number (cfg_windowMs example_config) 60000 in
    let recent := recent_of windowMs 30 (run 60000 100 example_history ∅)
                    (identity_key example_request) in
    oldest ∈ recent /\ Forall (fun t => oldest <= t) recent /\
    Some 60 = Some c /\ c = ceil_div (oldest + windowMs - 30) 1000 /\
    1000 * (c - 1) < oldest + windowMs - 30 <= 1000 * c /\
    header_value "Retry-After" example_limited_headers = Some (Some 60) /\
    header_value "X-RateLimit-Reset" example_limited_headers = Some (Some 60).
Proof.
  apply (rejected_retry_after_oldest example_config 60000 100 example_history
           example_request 30 example_full_store 429 example_limited_headers (Some 60)).
  - simpl. repeat split; repeat apply Forall_cons_2; try apply Forall_nil_2; simpl; lia.
  - repeat apply Forall_cons_2; try apply Forall_nil_2; simpl; lia.
  - vm_compute. reflexivity.
  - vm_compute. reflexivity.
Defined.

End RateLimitFacts.


(* ================================================================= *)
(** ** Facts about the quota ledger *)
(* ================================================================= *)

Module LedgerFacts.
Import Ledger.
Local Open Scope Z_scope.

Lemma update_used_ok (f : Z -> Z) (name : string) (db : sites) :
  (forall u, 0 <= u -> 0 <= f u) -> ledger_ok db -> ledger_ok (update_used f name db).
Proof.
  intros Hf Hdb. unfold update_used.
  destruct (db !! name) as [st|] eqn:E; [|done].
  apply map_Forall_insert_2; [|done]. cbn [used_bytes with_used].
  apply Hf. exact (map_Forall_lookup_1 _ _ _ _ Hdb E).
Qed.

Lemma update_used_lookup (f : Z -> Z) (name : string) (db : sites) (st : site) :
  db !! name = Some st ->
  update_used f name db !! name = Some (with_used st (f (used_bytes st))).
Proof. intros E. unfold update_used. rewrite E. apply lookup_insert_eq. Qed.

Lemma apply_op_ok (op : ledger_op) (db : sites) :
  op_arg_nonneg op -> ledger_ok db -> ledger_ok (apply_op db op).
Proof.
  destruct op as [b n|b n|b n]; cbn [op_arg_nonneg apply_op]; intros Hb;
    apply update_used_ok; lia.
Qed.

(** C3 (as the code has it).  [decrementUsedBytes] floors the counter at
    zero, so it never makes [used_bytes] negative; any sequence of ledger
    updates whose arguments are byte counts (non-negative) keeps every
    [used_bytes] non-negative. *)
Theorem ledger_nonneg_for_byte_counts :
  (forall (bytes : Z) (name : string) (db : sites) (st : site),
      db !! name = Some st ->
      decrementUsedBytes bytes name db !! name
        = Some (with_used st (Z.max 0 (used_bytes st - bytes)))) /\
  (forall (bytes : Z) (name : string) (db : sites),
      ledger_ok db -> ledger_ok (decrementUsedBytes bytes name db)) /\
  (forall (ops : list ledger_op) (db : sites),
      Forall op_arg_nonneg ops -> ledger_ok db -> ledger_ok (fold_left apply_op ops db)).
Proof.
  split; [|split].
  - intros b n db st E. by apply update_used_lookup.
  - intros b n db Hdb. apply update_used_ok; [lia|done].
  - induction ops as [|op ops IH]; intros db Hops Hdb; [done|].
    apply Forall_cons in Hops as [Hop Hops]. cbn [fold_left].
    apply IH; [done|]. by apply apply_op_ok.
Qed.

Lemma ledger_nonneg_for_byte_counts_witness :
  ledger_ok (fold_left apply_op [Increment 10 "s"; Decrement 100 "s"; Update 0 "s"] example_db).
Proof.
  destruct ledger_nonneg_for_byte_counts as (_ & _ & H).
  apply H.
  - repeat apply Forall_cons_2; try apply Forall_nil_2; simpl; lia.
  - unfold example_db. apply map_Forall_insert_2; [simpl; lia|apply map_Forall_empty].
Defined.

(** [incrementUsedBytes] has no floor: a negative delta (an overwrite by a
    smaller file, charged by its size difference) drives [used_bytes]
    below zero. *)
Lemma increment_negative_delta_goes_negative :
  ledger_ok example_db /\
  incrementUsedBytes (-100) "s" example_db !! "s" = Some (with_used example_site (-50)) /\
  ~ ledger_ok (incrementUsedBytes (-100) "s" example_db).
Proof.
  assert (E : incrementUsedBytes (-100) "s" example_db !! "s"
              = Some (with_used example_site (-50))) by reflexivity.
  split; [|split; [exact E|]].
  - unfold example_db. apply map_Forall_insert_2; [simpl; lia|apply map_Forall_empty].
  - intros H. pose proof (map_Forall_lookup_1 _ _ _ _ H E) as Hn. simpl in Hn. lia.
Qed.

End LedgerFacts.

(* ================================================================= *)
(** ** Facts about the upload and delete-site handlers *)
(* ================================================================= *)

Module HandlerFacts.
Import SafePath Ledger Handlers.
Local Open Scope Z_scope.

Lemma upload_check_status_quota (maxFileSize : Z) (cwd name : string) (f : option file)
    (q : upload_query) (s : state) (quota used : Z) :
  (upload_check maxFileSize cwd name f q {| db := set_quota name quota used (db s);
                                            disk := disk s |}).1
  = (upload_check maxFileSize cwd name f q s).1 /\
  disk (upload_check maxFileSize cwd name f q {| db := set_quota name quota used (db s);
                                                 disk := disk s |}).2
  = disk (upload_check maxFileSize cwd name f q s).2.
Proof.
  destruct s as [d k]. unfold upload_check, set_quota. cbn [db disk].
  destruct (d !! name) as [st|] eqn:E; [|rewrite E; by split].
  rewrite lookup_insert_eq. cbn [site_path].
  destruct f as [fl|]; [|by split].
  case_decide; [by split|].
  destruct (safePath _ _ _) as [t|]; [|by split].
  destruct (existsSync _ _ && _); [by split|].
  destruct (existsb _ _); by split.
Qed.

(** The status of an upload does not depend on the quota columns of the
    site: no quota is read on the upload path. *)
Lemma upload_status_quota (maxFileSize : Z) (cwd name : string) (f : option file)
    (q : upload_query) (s : state) (quota used : Z) :
  (upload maxFileSize cwd name f q {| db := set_quota name quota used (db s);
                                      disk := disk s |}).1
  = (upload maxFileSize cwd name f q s).1.
Proof.
  destruct (upload_check_status_quota maxFileSize cwd name f q s quota used) as [H1 H2].
  unfold upload.
  destruct (upload_check _ _ _ _ _ {| db := _; disk := _ |}) as [p1 s1] eqn:E1.
  destruct (upload_check maxFileSize cwd name f q s) as [p2 s2] eqn:E2.
  cbn [fst snd] in H1, H2. subst p2.
  destruct p1 as [st|t]; [done|].
  unfold upload_commit. rewrite H2. by destruct (bool_decide _).
Qed.

(** The size check is the only place the upload path looks at the size. *)
Lemma upload_check_small (maxFileSize : Z) (cwd name : string) (fl : file)
    (q : upload_query) (s : state) :
  file_size fl <= maxFileSize ->
  upload_check maxFileSize cwd name (Some fl) q s
  = upload_check 0 cwd name (Some {| file_name := file_name fl; file_size := 0 |}) q s.
Proof.
  intros H. unfold upload_check.
  destruct (db s !! name); [|done].
  rewrite !decide_False by (cbn [file_size]; lia). reflexivity.
Qed.

Lemma upload_small (maxFileSize : Z) (cwd name : string) (fl : file)
    (q : upload_query) (s : state) :
  file_size fl <= maxFileSize ->
  upload maxFileSize cwd name (Some fl) q s
  = upload 0 cwd name (Some {| file_name := file_name fl; file_size := 0 |}) q s.
Proof. intros H. unfold upload. by rewrite upload_check_small. Qed.

Lemma upload_interleaved_small (maxFileSize : Z) (cwd : string)
    (name1 : string) (f1 : file) (q1 : upload_query)
    (name2 : string) (f2 : file) (q2 : upload_query) (s : state) :
  file_size f1 <= maxFileSize -> file_size f2 <= maxFileSize ->
  upload_interleaved maxFileSize cwd name1 (Some f1) q1 name2 (Some f2) q2 s
  = upload_interleaved 0 cwd
      name1 (Some {| file_name := file_name f1; file_size := 0 |}) q1
      name2 (Some {| file_name := file_name f2; file_size := 0 |}) q2 s.
Proof.
  intros H1 H2. unfold upload_interleaved.
  rewrite (upload_check_small maxFileSize cwd name1 f1 q1 s H1).
  destruct (upload_check 0 cwd name1 _ q1 s) as [p1 s1].
  by rewrite (upload_check_small maxFileSize cwd name2 f2 q2 s1 H2).
Qed.

(** C4.  The upload handler has no quota reservation.  For every quota
    [q >= 0] (and a [MAX_FILE_SIZE] admitting files of [q/2 + 1] bytes),
    two uploads of [q/2 + 1] bytes to a fresh site, together above the
    quota, are both answered 201: when their checks interleave and when
    they run one after the other in either order.  Moreover the status of
    any upload is independent of the site's quota columns. *)
Theorem concurrent_uploads_both_granted (maxFileSize q : Z) :
  0 <= q -> q / 2 + 1 <= maxFileSize ->
  let sz := q / 2 + 1 in
  q < sz + sz /\
  (upload_interleaved maxFileSize "/srv" "s" (Some (file_a sz)) no_query
     "s" (Some (file_b sz)) no_query (fresh_state q)).1 = (201, 201) /\
  (let '(st1, s1) := upload maxFileSize "/srv" "s" (Some (file_a sz)) no_query (fresh_state q) in
   (st1, (upload maxFileSize "/srv" "s" (Some (file_b sz)) no_query s1).1)) = (201, 201) /\
  (let '(st1, s1) := upload maxFileSize "/srv" "s" (Some (file_b sz)) no_query (fresh_state q) in
   (st1, (upload maxFileSize "/srv" "s" (Some (file_a sz)) no_query s1).1)) = (201, 201) /\
  (forall (cwd name : string) (f : option file) (qry : upload_query) (s : state)
          (quota used : Z),
      (upload maxFileSize cwd name f qry {| db := set_quota name quota used (db s);
                                           disk := disk s |}).1
      = (upload maxFileSize cwd name f qry s).1).
Proof.
  intros Hq Hmax sz.
  assert (Ha : file_size (file_a sz) <= maxFileSize) by (cbn; lia).
  assert (Hb : file_size (file_b sz) <= maxFileSize) by (cbn; subst sz; lia).
  split; [subst sz; pose proof (Z.div_mod q 2 ltac:(lia)); pose proof (Z.mod_pos_bound q 2 ltac:(lia)); lia|]. split; [|split; [|split]].
  - rewrite (upload_interleaved_small maxFileSize _ _ _ _ _ _ _ _ Ha Hb).
    vm_compute. reflexivity.
  - rewrite (upload_small maxFileSize _ _ _ _ _ Ha).
    destruct (upload 0 _ _ _ _ _) as [st1 s1] eqn:E.
    rewrite (upload_small maxFileSize _ _ _ _ _ Hb).
    vm_compute in E. injection E as <- <-. vm_compute. reflexivity.
  - rewrite (upload_small maxFileSize _ _ _ _ _ Hb).
    destruct (upload 0 _ _ _ _ _) as [st1 s1] eqn:E.
    rewrite (upload_small maxFileSize _ _ _ _ _ Ha).
    vm_compute in E. injection E as <- <-. vm_compute. reflexivity.
  - intros. apply upload_status_quota.
Qed.

Lemma concurrent_uploads_both_granted_witness :
  let sz := 1000 / 2 + 1 in
  1000 < sz + sz /\
  (upload_interleaved 52428800 "/srv" "s" (Some (file_a sz)) no_query
     "s" (Some (file_b sz)) no_query (fresh_state 1000)).1 = (201, 201) /\
  (let '(st1, s1) := upload 52428800 "/srv" "s" (Some (file_a sz)) no_query (fresh_state 1000) in
   (st1, (upload 52428800 "/srv" "s" (Some (file_b sz)) no_query s1).1)) = (201, 201) /\
  (let '(st1, s1) := upload 52428800 "/srv" "s" (Some (file_b sz)) no_query (fresh_state 1000) in
   (st1, (upload 52428800 "/srv" "s" (Some (file_a sz)) no_query s1).1)) = (201, 201) /\
  (forall (cwd name : string) (f : option file) (qry : upload_query) (s : state)
          (quota used : Z),
      (upload 52428800 cwd name f qry {| db := set_quota name quota used (db s);
                                        disk := disk s |}).1
      = (upload 52428800 cwd name f qry s).1).
Proof. apply (concurrent_uploads_both_granted 52428800 1000); vm_compute; congruence. Defined.

(** C9.  Route removal through the admin API treats a 404 answer as
    success, and the delete-site handler then goes on to remove the site;
    any other non-ok answer makes [removeSite] throw, and the delete-site
    handler stops with the tenant (row and files) left exactly as it was. *)
Theorem removeSite_404_tolerant_other_failures_abort (status : Z) :
  (status = 404 ->
     Caddy.removeSite_api_module status = Caddy.Returned /\
     Caddy.removeSiteViaApi status = Caddy.Returned /\
     Caddy.removeSite false status = Caddy.Returned /\
     (forall (cwd name : string) (s : state) (site : site),
         db s !! name = Some site ->
         (deleteSite false status cwd name s).1 = 200 /\
         db (deleteSite false status cwd name s).2 !! name = None)) /\
  (Caddy.ok status = false -> status <> 404 ->
     Caddy.removeSite_api_module status = Caddy.Threw /\
     Caddy.removeSiteViaApi status = Caddy.Threw /\
     Caddy.removeSite false status = Caddy.Threw /\
     (forall (cwd name : string) (s : state),
         (deleteSite false status cwd name s).2 = s /\
         (db s !! name <> None -> (deleteSite false status cwd name s).1 = 500))).
Proof.
  split.
  - intros ->. split; [reflexivity|]. split; [reflexivity|]. split; [reflexivity|].
    intros cwd name s site E. unfold deleteSite. rewrite E. cbn [fst snd db].
    split; [reflexivity|]. apply lookup_delete_eq.
  - intros Hok Hne.
    assert (Hthrow : Caddy.removeSiteViaApi status = Caddy.Threw).
    { unfold Caddy.removeSiteViaApi. rewrite Hok.
      destruct (Z.eqb_spec status 404); [contradiction|reflexivity]. }
    split; [exact Hthrow|]. split; [exact Hthrow|].
    split; [exact Hthrow|].
    intros cwd name s. unfold deleteSite. cbn [Caddy.removeSite]. rewrite Hthrow.
    destruct (db s !! name); split; done.
Qed.

Lemma removeSite_404_tolerant_other_failures_abort_witness :
  Caddy.removeSiteViaApi 404 = Caddy.Returned /\
  Caddy.removeSiteViaApi 500 = Caddy.Threw /\
  deleteSite false 500 "/srv" "s" (fresh_state 1000) = (500, fresh_state 1000).
Proof.
  destruct (removeSite_404_tolerant_other_failures_abort 404) as [H404 _].
  destruct (removeSite_404_tolerant_other_failures_abort 500) as [_ H500].
  destruct (H404 eq_refl) as (_ & A & _).
  destruct (H500 ltac:(vm_compute; reflexivity) ltac:(lia)) as (_ & B & _ & D).
  split; [exact A|]. split; [exact B|].
  destruct (D "/srv" "s" (fresh_state 1000)) as [D1 D2].
  rewrite <- D1 at 2. rewrite <- (D2 ltac:(vm_compute; discriminate)) at 2.
  destruct (deleteSite false 500 "/srv" "s" (fresh_state 1000)). reflexivity.
Defined.

End HandlerFacts.

(* ================================================================= *)
(** ** More facts about [safePath]: edge inputs, normal form, idempotence *)
(* ================================================================= *)

Module SafePathMore.
Import SafePath SafePathFacts.

Lemma split_sep_nonempty (s : string) : exists p ps, split_sep s = p :: ps.
Proof.
  induction s as [|c s IH]; simpl; [eauto|].
  destruct (is_sep c); [eauto|]. destruct IH as (p & ps & ->). eauto.
Qed.

(** Splitting at a separator splits the components. *)
Lemma split_sep_app_sep (a b : string) :
  split_sep (a +:+ "/" +:+ b) = split_sep a ++ split_sep b.
Proof.
  induction a as [|c a IH]; [reflexivity|].
  rewrite append_cons. cbn [split_sep]. rewrite IH.
  destruct (is_sep c); [reflexivity|].
  destruct (split_sep_nonempty a) as (p & ps & ->). reflexivity.
Qed.

Lemma split_sep_single (x : string) : no_sep x = true -> split_sep x = [x].
Proof.
  induction x as [|c x IH]; [reflexivity|].
  cbn [no_sep split_sep]. intros H. apply andb_true_iff in H as [Hc Hx].
  apply negb_true_iff in Hc. rewrite Hc, IH by done. reflexivity.
Qed.

Lemma split_sep_join (l : list string) :
  l <> [] -> Forall (fun x => no_sep x = true) l -> split_sep (join_sep l) = l.
Proof.
  induction l as [|x xs IH]; intros Hne Hl; [done|].
  apply Forall_cons in Hl as [Hx Hxs].
  destruct xs as [|y ys]; [by apply split_sep_single|].
  rewrite join_sep_cons by done. unfold sep.
  rewrite split_sep_app_sep, split_sep_single, IH by done. reflexivity.
Qed.

(** The loop of [resolve] prepends whole components to what it started
    from, and whether it met an absolute argument does not depend on it. *)
Lemma resolve_loop_split (ps : list string) :
  exists L, forall y,
    split_sep (fst (resolve_loop ps y)) = L ++ split_sep y /\
    snd (resolve_loop ps y) = snd (resolve_loop ps EmptyString).
Proof.
  induction ps as [|p ps IH].
  - exists []. intros y. split; reflexivity.
  - destruct IH as [L HL]. cbn [resolve_loop].
    destruct (String.eqb p EmptyString); [exists L; exact HL|].
    destruct (is_absolute p).
    + exists (split_sep p). intros y. cbn [fst snd].
      by rewrite split_sep_app_sep.
    + exists (L ++ split_sep p). intros y.
      destruct (HL (p +:+ "/" +:+ y)) as [H1 H2].
      destruct (HL (p +:+ "/" +:+ EmptyString)) as [_ H3].
      rewrite H1, split_sep_app_sep, app_assoc. split; [done|congruence].
Qed.

Lemma normalizeString_split (p q : string) (a : bool) :
  split_sep p = split_sep q -> normalizeString p a = normalizeString q a.
Proof. intros H. unfold normalizeString, norm_segments. by rewrite H. Qed.

(** Resolving an extra ["."] changes nothing. *)
Lemma resolve_dot (cwd base : string) :
  resolve cwd [base; "."] = resolve cwd [base].
Proof.
  unfold resolve. cbn [rev app].
  change (resolve_loop ["."; base; cwd] EmptyString)
    with (resolve_loop [base; cwd] ("." +:+ "/" +:+ EmptyString)).
  destruct (resolve_loop_split [base; cwd]) as [L HL].
  destruct (HL ("." +:+ "/" +:+ EmptyString)) as [H1 H1b].
  destruct (HL EmptyString) as [H2 _].
  destruct (resolve_loop [base; cwd] ("." +:+ "/" +:+ EmptyString)) as [r1 b1].
  destruct (resolve_loop [base; cwd] EmptyString) as [r2 b2].
  cbn [fst snd] in *. subst b1.
  assert (E : normalizeString r1 (negb b2) = normalizeString r2 (negb b2)).
  { unfold normalizeString, norm_segments. rewrite H1, H2, !fold_left_app.
    reflexivity. }
  by rewrite E.
Qed.

(** A normalized component: non-empty, separator-free, neither ["."] nor
    [".."]. *)
Definition clean (x : string) : Prop := good x /\ x <> "." /\ x <> "..".

Lemma fold_norm_clean (segs stack : list string) :
  Forall (fun x => no_sep x = true) segs -> Forall clean stack ->
  Forall clean (fold_left (norm_step false) segs stack).
Proof.
  revert stack; induction segs as [|seg segs IH]; intros stack Hsegs Hstack;
    simpl; [done|].
  apply Forall_cons in Hsegs as [Hseg Hrest].
  apply IH; [done|]. unfold norm_step.
  destruct (String.eqb seg EmptyString) eqn:He; [done|].
  destruct (String.eqb seg ".") eqn:Hd; [done|]. simpl.
  destruct (String.eqb seg "..") eqn:Hdd.
  - destruct stack as [|top rest]; [done|].
    destruct (String.eqb top ".."); [done|]. by apply Forall_cons in Hstack as [_ ?].
  - constructor; [|done].
    apply String.eqb_neq in He, Hd, Hdd. repeat split; done.
Qed.

Lemma norm_segments_clean (path : string) : Forall clean (norm_segments path false).
Proof.
  unfold norm_segments. apply Forall_rev, fold_norm_clean; [apply split_sep_no_sep|].
  constructor.
Qed.

(** Normalizing clean components keeps them all. *)
Lemma fold_norm_keep (segs stack : list string) :
  Forall clean segs -> fold_left (norm_step false) segs stack = rev segs ++ stack.
Proof.
  revert stack; induction segs as [|x xs IH]; intros stack H; [done|].
  apply Forall_cons in H as [[[Hx0 _] [Hx1 Hx2]] Hxs].
  cbn [fold_left]. rewrite IH by done.
  unfold norm_step.
  apply String.eqb_neq in Hx0, Hx1, Hx2. rewrite Hx0, Hx1, Hx2. simpl.
  by rewrite <- app_assoc.
Qed.

Lemma clean_no_sep (l : list string) :
  Forall clean l -> Forall (fun x => no_sep x = true) l.
Proof. intros H. eapply Forall_impl; [exact H|]. by intros x [[_ ?] _]. Qed.

Lemma ends_with_sep_app (a b : string) :
  b <> EmptyString -> ends_with_sep (a +:+ b) = ends_with_sep b.
Proof.
  intros Hb. induction a as [|c a IH]; [done|].
  rewrite append_cons. cbn [ends_with_sep]. rewrite IH.
  destruct a; [|done]. destruct b; done.
Qed.

Lemma ends_with_sep_no_sep (x : string) : no_sep x = true -> ends_with_sep x = false.
Proof.
  induction x as [|c x IH]; [done|]. cbn [no_sep]. intros H.
  apply andb_true_iff in H as [Hc Hx]. apply negb_true_iff in Hc.
  destruct x as [|d x]; cbn [ends_with_sep]; [done|]. by apply IH.
Qed.

Lemma ends_with_sep_join (l : list string) :
  l <> [] -> Forall good l -> ends_with_sep (join_sep l) = false.
Proof.
  induction l as [|x xs IH]; intros Hne Hl; [done|].
  apply Forall_cons in Hl as [[Hx0 Hx] Hxs].
  destruct xs as [|y ys]; [by apply ends_with_sep_no_sep|].
  rewrite join_sep_cons by done. unfold sep.
  rewrite <- append_assoc'. rewrite ends_with_sep_app by
    (apply join_sep_nonempty; [done|discriminate]).
  by apply IH.
Qed.

(** A clean component is its own normal form. *)
Lemma normalize_clean (x : string) : clean x -> normalize x = x.
Proof.
  intros [[Hne Hns] [Hd Hdd]].
  assert (Habs : is_absolute x = false).
  { destruct x as [|c x']; [done|]. cbn [no_sep] in Hns.
    apply andb_true_iff in Hns as [Hc _]. by apply negb_true_iff in Hc. }
  unfold normalize. rewrite (proj2 (String.eqb_neq _ _) Hne), Habs.
  rewrite ends_with_sep_no_sep by done. cbn [negb].
  unfold normalizeString, norm_segments. rewrite split_sep_single by done.
  cbn [fold_left]. unfold norm_step.
  rewrite (proj2 (String.eqb_neq _ _) Hne), (proj2 (String.eqb_neq _ _) Hd),
    (proj2 (String.eqb_neq _ _) Hdd).
  cbn [orb rev app join_sep].
  by rewrite (proj2 (String.eqb_neq _ _) Hne).
Qed.

(** Resolving a clean component below a root other than ["/"] appends it
    to the resolved root. *)
Lemma resolve_child (cwd base x : string) :
  is_absolute cwd = true -> resolve cwd [base] <> "/" -> clean x ->
  resolve cwd [base; x] = resolve cwd [base] +:+ "/" +:+ x.
Proof.
  intros Hcwd Hroot Hx.
  destruct Hx as [[Hne Hns] [Hd Hdd]].
  assert (Habs : is_absolute x = false).
  { destruct x as [|c x']; [done|]. cbn [no_sep] in Hns.
    apply andb_true_iff in Hns as [Hc _]. by apply negb_true_iff in Hc. }
  assert (Hstep : forall st, norm_step false st x = x :: st).
  { intros st. unfold norm_step.
    rewrite (proj2 (String.eqb_neq _ _) Hne), (proj2 (String.eqb_neq _ _) Hd),
      (proj2 (String.eqb_neq _ _) Hdd). reflexivity. }
  unfold resolve in Hroot |- *. cbn [rev app] in Hroot |- *.
  assert (Hl : resolve_loop [x; base; cwd] EmptyString
               = resolve_loop [base; cwd] (x +:+ "/" +:+ EmptyString)).
  { cbn [resolve_loop]. rewrite (proj2 (String.eqb_neq _ _) Hne), Habs. reflexivity. }
  rewrite Hl.
  pose proof (resolve_loop_absolute cwd [base] (x +:+ "/" +:+ EmptyString) Hcwd) as Ha1.
  pose proof (resolve_loop_absolute cwd [base] EmptyString Hcwd) as Ha0.
  cbn [app] in Ha1, Ha0.
  destruct (resolve_loop_split [base; cwd]) as [L HL].
  destruct (HL (x +:+ "/" +:+ EmptyString)) as [H1 _].
  destruct (HL EmptyString) as [H0 _].
  destruct (resolve_loop [base; cwd] (x +:+ "/" +:+ EmptyString)) as [p1 b1].
  destruct (resolve_loop [base; cwd] EmptyString) as [p0 b0].
  cbn [fst snd] in *. subst b1 b0. cbn [negb] in Hroot |- *.
  unfold normalizeString, norm_segments in Hroot |- *.
  rewrite H1, split_sep_app_sep, split_sep_single by done.
  rewrite H0 in Hroot |- *.
  rewrite fold_left_app in Hroot. rewrite !fold_left_app.
  set (S := fold_left (norm_step false) L []) in Hroot |- *.
  change (split_sep EmptyString) with [EmptyString] in Hroot |- *.
  cbn [fold_left app] in Hroot |- *. rewrite Hstep.
  change (norm_step false (x :: S) EmptyString) with (x :: S).
  change (norm_step false S EmptyString) with S in Hroot |- *.
  cbn [rev]. destruct (rev S) as [|y ys] eqn:ES; [by exfalso; apply Hroot|].
  rewrite join_sep_app by done. cbn [join_sep]. unfold sep.
  by rewrite append_assoc'.
Qed.

Lemma no_sep_app (a b : string) : no_sep (a +:+ b) = no_sep a && no_sep b.
Proof.
  induction a as [|c a IH]; [reflexivity|].
  rewrite append_cons. cbn [no_sep]. by rewrite IH, andb_assoc.
Qed.

Lemma contains_nul_app (a b : string) : contains_nul (a +:+ String nul b) = true.
Proof.
  induction a as [|c a IH]; [reflexivity|].
  rewrite append_cons. cbn [contains_nul]. by rewrite IH, orb_true_r.
Qed.

(** A separator-free string with a NUL in it is a clean component. *)
Lemma clean_nul (a b : string) :
  no_sep a = true -> no_sep b = true -> clean (a +:+ String nul b).
Proof.
  intros Ha Hb. repeat split.
  - destruct a; discriminate.
  - rewrite no_sep_app, Ha. cbn [no_sep]. rewrite Hb. reflexivity.
  - intros E. pose proof (contains_nul_app a b) as C. rewrite E in C. discriminate.
  - intros E. pose proof (contains_nul_app a b) as C. rewrite E in C. discriminate.
Qed.

(** C5 (amended).  [safePath] has no NUL test: with an absolute working
    directory and a root that does not resolve to ["/"], every clean
    component [x] (non-empty, separator-free, neither ["."] nor [".."]) is
    accepted as the resolved root, ["/"] and [x]; in particular so is every
    separator-free component containing a NUL byte, wherever the NUL
    stands in it. *)
Theorem safePath_nul_ordinary (cwd base : string) :
  is_absolute cwd = true -> resolve cwd [base] <> "/" ->
  (forall x, clean x ->
     safePath cwd base x = Some (resolve cwd [base] +:+ "/" +:+ x)) /\
  (forall a b, no_sep a = true -> no_sep b = true ->
     contains_nul (a +:+ String nul b) = true /\
     safePath cwd base (a +:+ String nul b)
       = Some (resolve cwd [base] +:+ "/" +:+ (a +:+ String nul b))).
Proof.
  intros Hcwd Hroot.
  assert (Hc : forall x, clean x ->
            safePath cwd base x = Some (resolve cwd [base] +:+ "/" +:+ x)).
  { intros x Hx. unfold safePath. cbv zeta.
    rewrite normalize_clean by done. rewrite resolve_child by done.
    assert (Hst : starts_with (resolve cwd [base] +:+ "/" +:+ x)
                    (resolve cwd [base] +:+ sep) = true).
    { apply starts_with_spec. exists x. unfold sep. by rewrite append_assoc'. }
    rewrite Hst. reflexivity. }
  split; [exact Hc|].
  intros a b Ha Hb. split; [apply contains_nul_app|].
  apply Hc, clean_nul; done.
Qed.

Lemma safePath_nul_ordinary_witness :
  safePath "/srv" "/var/sites/s" ("file.txt" +:+ String nul EmptyString)
    = Some ("/var/sites/s/file.txt" +:+ String nul EmptyString) /\
  safePath "/srv" "/var/sites/s" ("a" +:+ String nul "b")
    = Some ("/var/sites/s/a" +:+ String nul "b").
Proof.
  destruct (safePath_nul_ordinary "/srv" "/var/sites/s" eq_refl ltac:(discriminate))
    as [_ H].
  destruct (H "file.txt" EmptyString eq_refl eq_refl) as [_ ->].
  destruct (H "a" "b" eq_refl eq_refl) as [_ ->].
  split; reflexivity.
Defined.

(** An absolute path of clean components is its own normal form, and it
    resolves to itself. *)
Lemma clean_path_fixed (cwd base : string) (SP : list string) :
  Forall clean SP ->
  let r := "/" +:+ join_sep SP in
  normalize r = r /\ resolve cwd [base; r] = r.
Proof.
  intros HSP r.
  assert (Hgood : Forall good SP) by (eapply Forall_impl; [exact HSP|]; by intros x [? _]).
  assert (Hsplit : split_sep r = EmptyString :: (if decide (SP = []) then [EmptyString] else SP)).
  { unfold r. change ("/" +:+ join_sep SP) with (EmptyString +:+ "/" +:+ join_sep SP).
    rewrite split_sep_app_sep. case_decide as HS; [by subst|].
    rewrite split_sep_join by (done || by apply clean_no_sep). reflexivity. }
  assert (Hnorm : norm_segments r false = SP).
  { unfold norm_segments. rewrite Hsplit. case_decide as HS; [by subst|].
    cbn [fold_left]. rewrite fold_norm_keep by done.
    change (norm_step false [] EmptyString) with (@nil string).
    by rewrite app_nil_r, rev_involutive. }
  split.
  - unfold normalize. case_decide as HS.
    + subst SP. reflexivity.
    + assert (Hr : String.eqb r EmptyString = false) by reflexivity.
      rewrite Hr. change (is_absolute r) with true. cbn [negb].
      assert (He : ends_with_sep r = false).
      { unfold r. change ("/" +:+ join_sep SP) with (String sep_char (join_sep SP)).
        destruct (join_sep SP) as [|c j] eqn:EJ.
        - exfalso. exact (join_sep_nonempty SP Hgood HS EJ).
        - change (ends_with_sep (String c j) = false). rewrite <- EJ. by apply ends_with_sep_join. }
      rewrite He. unfold normalizeString. rewrite Hnorm.
      destruct (String.eqb (join_sep SP) EmptyString) eqn:EJ.
      * apply String.eqb_eq in EJ. exfalso. exact (join_sep_nonempty SP Hgood HS EJ).
      * reflexivity.
  - unfold resolve. cbn [rev app].
    change (resolve_loop [r; base; cwd] EmptyString) with (r +:+ "/" +:+ EmptyString, true).
    cbv iota beta. cbn [negb].
    assert (E : normalizeString (r +:+ "/" +:+ EmptyString) false = join_sep SP).
    { unfold normalizeString, norm_segments. rewrite split_sep_app_sep, Hsplit.
      rewrite fold_left_app. case_decide as HS; [subst; reflexivity|].
      cbn [fold_left]. rewrite (fold_norm_keep SP) by done.
      change (norm_step false [] EmptyString) with (@nil string).
      change (fold_left (norm_step false) (split_sep EmptyString) (rev SP ++ [])) with (rev SP ++ []).
      by rewrite app_nil_r, rev_involutive. }
    by rewrite E.
Qed.

(** The shape of an accepted path, with an absolute working directory. *)
Lemma safePath_some_shape (cwd base userPath r : string) :
  is_absolute cwd = true -> safePath cwd base userPath = Some r ->
  r = resolve cwd [base; normalize userPath] /\
  exists SP, r = "/" +:+ join_sep SP /\ Forall clean SP.
Proof.
  intros Hcwd H. unfold safePath in H. cbv zeta in H.
  destruct (_ && _) in H; [discriminate|]. injection H as <-.
  split; [done|]. exists (resolved_segments cwd [base; normalize userPath]).
  split; [by apply resolve_absolute|apply norm_segments_clean].
Qed.

(** [safePath] with an empty user path, or ["."], returns the resolved
    base itself, for every base (the filesystem root included). *)
Theorem safePath_empty_or_dot_is_base (cwd base : string) :
  safePath cwd base EmptyString = Some (resolve cwd [base]) /\
  safePath cwd base "." = Some (resolve cwd [base]).
Proof.
  unfold safePath. cbv zeta.
  change (normalize EmptyString) with ".". change (normalize ".") with ".".
  rewrite resolve_dot, String.eqb_refl, andb_false_r. split; reflexivity.
Qed.

(** With an absolute working directory, a path [safePath] returns is
    absolute and normalized: ["/"] followed by components none of which is
    empty, ["."] or [".."]. *)
Theorem safePath_result_normalized (cwd base userPath r : string) :
  is_absolute cwd = true -> safePath cwd base userPath = Some r ->
  exists SP, r = "/" +:+ join_sep SP /\ Forall clean SP.
Proof. intros Hcwd H. by destruct (safePath_some_shape cwd base userPath r Hcwd H). Qed.

Lemma safePath_result_normalized_witness :
  exists SP, "/var/sites/s/a/c/file.txt" = "/" +:+ join_sep SP /\ Forall clean SP.
Proof.
  apply (safePath_result_normalized "/srv" "/var/sites/s" "a/b/../c/file.txt"); reflexivity.
Defined.

(** [safePath] accepts its own output unchanged: validating an accepted
    path a second time against the same base returns it as it is. *)
Theorem safePath_idempotent (cwd base userPath r : string) :
  is_absolute cwd = true -> safePath cwd base userPath = Some r ->
  safePath cwd base r = Some r.
Proof.
  intros Hcwd H.
  destruct (safePath_some_shape cwd base userPath r Hcwd H) as [Hr (SP & HSP & Hclean)].
  destruct (clean_path_fixed cwd base SP Hclean) as [Hn Hres].
  rewrite <- HSP in Hn, Hres.
  unfold safePath in H |- *. cbv zeta in H |- *.
  rewrite Hn, Hres. rewrite <- Hr in H.
  destruct (_ && _); [discriminate|done].
Qed.

Lemma safePath_idempotent_witness :
  safePath "/srv" "/var/sites/s" "/var/sites/s/a/c/file.txt" = Some "/var/sites/s/a/c/file.txt".
Proof.
  apply (safePath_idempotent "/srv" "/var/sites/s" "a/b/../c/file.txt"); reflexivity.
Defined.

End SafePathMore.

(* ================================================================= *)
(** ** More of the rate limiter: statistics, headers, sweep, retries *)
(* ================================================================= *)

Module RateLimitMore.
Import RateLimit RateLimitFacts.
Local Open Scope Z_scope.

Lemma retained_length (windowMs now : Z) (ts : list Z) :
  (length (retained windowMs now ts) <= length ts)%nat.
Proof. unfold retained. apply length_filter. Qed.

Lemma recent_of_length (windowMs now : Z) (s : store) (k : string) (ts : list Z) :
  s !! k = Some ts ->
  (length (recent_of windowMs now s k) <= length ts)%nat.
Proof. intros E. unfold recent_of. rewrite E. apply retained_length. Qed.

Lemma limits_ok_empty (m : Z) : limits_ok m ∅.
Proof. apply map_Forall_empty. Qed.

Lemma recent_of_limit (windowMs now m : Z) (s : store) (k : string) :
  limits_ok m s -> 0 <= m -> Z.of_nat (length (recent_of windowMs now s k)) <= m.
Proof.
  intros Hs Hm. unfold recent_of.
  destruct (s !! k) as [ts|] eqn:E; cbn [from_option id default].
  - destruct (map_Forall_lookup_1 _ _ _ _ Hs E) as [_ Hle].
    pose proof (retained_length windowMs now ts). lia.
  - cbn. lia.
Qed.

Lemma middleware_limits_ok (windowMs m : Z) (r : request) (now : Z) (s : store) :
  limits_ok m s -> limits_ok m (middleware windowMs m r now s).1.
Proof.
  intros Hs. rewrite middleware_unfold. cbv zeta.
  case_decide as Hc; cbn [fst]; [done|].
  apply map_Forall_insert_2; [|done].
  rewrite length_app. cbn [length]. lia.
Qed.

Lemma retained_twice (w1 t w2 now : Z) (ts : list Z) :
  (forall x, now - x < w2 -> t - x < w1) ->
  retained w2 now (retained w1 t ts) = retained w2 now ts.
Proof.
  intros Himp. induction ts as [|x ts IH]; [reflexivity|].
  rewrite (retained_cons w1 t x). case_decide as H1.
  - rewrite !(retained_cons w2 now x). by rewrite IH.
  - rewrite IH, (retained_cons w2 now x). case_decide as H2; [|done].
    exfalso. apply H1. by apply Himp.
Qed.

Lemma retained_idem (windowMs now : Z) (ts : list Z) :
  retained windowMs now (retained windowMs now ts) = retained windowMs now ts.
Proof. apply retained_twice. done. Qed.

Lemma sweep_lookup (envWindow now : Z) (s : store) (k : string) :
  sweep envWindow now s !! k =
  match s !! k with
  | Some ts => if decide (retained envWindow now ts = []) then None
               else Some (retained envWindow now ts)
  | None => None
  end.
Proof.
  unfold sweep. destruct (s !! k) as [ts|] eqn:E.
  - case_decide as Hc.
    + apply map_lookup_filter_None_2. right. intros x Hx.
      rewrite lookup_fmap, E in Hx. injection Hx as <-. cbn [snd].
      rewrite retained_idem. tauto.
    + apply map_lookup_filter_Some_2; [by rewrite lookup_fmap, E|].
      cbn [snd]. by rewrite retained_idem.
  - apply map_lookup_filter_None_2. left. by rewrite lookup_fmap, E.
Qed.

Lemma sweep_limits_ok (envWindow now m : Z) (s : store) :
  limits_ok m s -> limits_ok m (sweep envWindow now s).
Proof.
  intros Hs. apply map_Forall_lookup_2. intros k ts Hk.
  rewrite sweep_lookup in Hk.
  destruct (s !! k) as [ts0|] eqn:E; [|discriminate].
  case_decide as Hc; [discriminate|]. injection Hk as <-.
  destruct (map_Forall_lookup_1 _ _ _ _ Hs E) as [_ Hle].
  pose proof (retained_length envWindow now ts0).
  destruct (retained envWindow now ts0) as [|x xs]; [done|].
  cbn [length] in *. lia.
Qed.

Lemma run_limits_ok (envWindow envMax m : Z) (evs : list event) (s : store) :
  calls_max envMax m evs -> limits_ok m s -> limits_ok m (run envWindow envMax evs s).
Proof.
  revert s. induction evs as [|e evs IH]; intros s Hc Hs; [done|].
  apply Forall_cons in Hc as [He Hc].
  unfold run. cbn [fold_left]. fold (run envWindow envMax evs (step envWindow envMax s e)).
  apply IH; [done|].
  destruct e as [cfg r now|now|now]; cbn [step].
  - unfold rateLimit. rewrite He. by apply middleware_limits_ok.
  - by apply sweep_limits_ok.
  - apply limits_ok_empty.
Qed.

Lemma stats_total_bounds (lo hi : Z) (l : list (string * list Z)) :
  Forall (fun kv => lo <= Z.of_nat (length kv.2) <= hi) l ->
  Z.of_nat (length l) * lo
    <= foldr (uncurry (fun _ ts acc => acc + Z.of_nat (length ts))) 0 l
    <= Z.of_nat (length l) * hi.
Proof.
  induction l as [|[k ts] l IH]; intros Hf; [cbn; lia|].
  apply Forall_cons in Hf as [Hkv Hf]. specialize (IH Hf).
  cbn [foldr uncurry length fst snd] in *. lia.
Qed.

Lemma stats_total_map (lo hi : Z) (s : store) :
  map_Forall (fun _ ts => lo <= Z.of_nat (length ts) <= hi) s ->
  Z.of_nat (size s) * lo
    <= map_fold (fun _ ts totalRequests => totalRequests + Z.of_nat (length ts)) 0 s
    <= Z.of_nat (size s) * hi.
Proof.
  rewrite map_Forall_to_list, map_fold_foldr, <- length_map_to_list.
  generalize (map_to_list s) as l.
  induction l as [|[k ts] l IH]; intros Hf; [cbn; lia|].
  apply Forall_cons in Hf as [Hkv Hf]. specialize (IH Hf).
  cbn [foldr uncurry length fst snd] in *. lia.
Qed.

Lemma filter_length_mono (P Q : Z -> Prop) `{forall x, Decision (P x)}
    `{forall x, Decision (Q x)} (l : list Z) :
  (forall x, x ∈ l -> Q x -> P x) -> (length (filter Q l) <= length (filter P l))%nat.
Proof.
  induction l as [|a l IH]; intros Himp; [done|].
  rewrite !filter_cons.
  assert (IH' : (length (filter Q l) <= length (filter P l))%nat).
  { apply IH. intros x Hx. apply Himp. apply elem_of_cons; by right. }
  destruct (decide (Q a)) as [Hq|Hq]; destruct (decide (P a)) as [Hp|Hp];
    cbn [length]; try lia.
  exfalso. apply Hp, Himp; [apply elem_of_cons; by left|done].
Qed.

Lemma filter_length_lt (P Q : Z -> Prop) `{forall x, Decision (P x)}
    `{forall x, Decision (Q x)} (l : list Z) (y : Z) :
  (forall x, x ∈ l -> Q x -> P x) -> y ∈ l -> P y -> ~ Q y ->
  (length (filter Q l) < length (filter P l))%nat.
Proof.
  induction l as [|a l IH]; intros Himp Hy Hp Hq; [by apply elem_of_nil in Hy|].
  assert (Himp' : forall x, x ∈ l -> Q x -> P x).
  { intros x Hx. apply Himp. apply elem_of_cons; by right. }
  pose proof (filter_length_mono P Q l Himp') as Hmono.
  rewrite !filter_cons.
  apply elem_of_cons in Hy as [->|Hy].
  - rewrite (decide_False _ _ Hq), (decide_True _ _ Hp). cbn [length]. lia.
  - specialize (IH Himp' Hy Hp Hq).
    destruct (decide (Q a)) as [Hqa|Hqa]; destruct (decide (P a)) as [Hpa|Hpa];
      cbn [length]; try lia.
    exfalso. apply Hpa, Himp; [apply elem_of_cons; by left|done].
Qed.

(** Along any history of calls, sweeps and [clearRateLimits] from the
    empty store in which every middleware resolves [maxRequests] to [m],
    each stored key holds between one and [m] timestamps, so
    [getRateLimitStats()] reports [keys <= totalRequests <= keys * m]. *)
Theorem stats_bounded_by_limit (envWindow envMax m : Z) (evs : list event) :
  calls_max envMax m evs ->
  let s := run envWindow envMax evs ∅ in
  limits_ok m s /\
  (getRateLimitStats s).1 <= (getRateLimitStats s).2 <= (getRateLimitStats s).1 * m.
Proof.
  intros Hc s. assert (Hs : limits_ok m s).
  { apply run_limits_ok; [done|apply limits_ok_empty]. }
  split; [done|]. unfold getRateLimitStats. cbn [fst snd].
  pose proof (stats_total_map 1 m s) as Hb.
  assert (Hf : map_Forall (fun _ ts => 1 <= Z.of_nat (length ts) <= m) s).
  { eapply map_Forall_impl; [exact Hs|]. intros k ts [H1 H2]. lia. }
  specialize (Hb Hf). lia.
Qed.

Lemma stats_bounded_by_limit_witness :
  calls_max 100 3 example_history /\
  let s := run 60000 100 example_history ∅ in
  limits_ok 3 s /\
  (getRateLimitStats s).1 <= (getRateLimitStats s).2 <= (getRateLimitStats s).1 * 3.
Proof.
  assert (Hc : calls_max 100 3 example_history).
  { repeat apply Forall_cons_2; try apply Forall_nil_2; reflexivity. }
  split; [exact Hc|]. exact (stats_bounded_by_limit 60000 100 3 example_history Hc).
Defined.

(** When the middleware calls [next()], the key's stored sequence ends
    with the call's time, [X-RateLimit-Limit] is [maxRequests],
    [X-RateLimit-Remaining] is [maxRequests] minus the stored count and
    lies in [0 .. maxRequests - 1], and [X-RateLimit-Reset] is the whole
    window in seconds, [ceil(windowMs / 1000)]. *)
Theorem admitted_headers (windowMs maxRequests : Z) (r : request) (now : Z)
    (s s' : store) (hs : list (string * hval)) :
  middleware windowMs maxRequests r now s = (s', NextCalled hs) ->
  exists ts, s' !! identity_key r = Some ts /\ last ts = Some now /\
    header_value "X-RateLimit-Limit" hs = Some (Some maxRequests) /\
    header_value "X-RateLimit-Remaining" hs =
      Some (Some (maxRequests - Z.of_nat (length ts))) /\
    0 <= maxRequests - Z.of_nat (length ts) < maxRequests /\
    header_value "X-RateLimit-Reset" hs = Some (Some (ceil_div windowMs 1000)).
Proof.
  rewrite middleware_unfold. cbv zeta. case_decide as Hc; [discriminate|].
  intros Heq. injection Heq as <- <-.
  exists (recent_of windowMs now s (identity_key r) ++ [now]).
  rewrite lookup_insert_eq, last_snoc, length_app. cbn [length].
  split; [done|]. split; [done|].
  split; [reflexivity|]. split; [reflexivity|]. split; [lia|reflexivity].
Qed.

Lemma admitted_headers_witness :
  exists ts, (<["Bearer k" := [0; 10]]> ∅ : store) !! identity_key example_request = Some ts /\
    last ts = Some 10 /\
    header_value "X-RateLimit-Limit"
      [("X-RateLimit-Limit", Some 3); ("X-RateLimit-Remaining", Some 1);
       ("X-RateLimit-Reset", Some 60)] = Some (Some 3) /\
    header_value "X-RateLimit-Remaining"
      [("X-RateLimit-Limit", Some 3); ("X-RateLimit-Remaining", Some 1);
       ("X-RateLimit-Reset", Some 60)] = Some (Some (3 - Z.of_nat (length ts))) /\
    0 <= 3 - Z.of_nat (length ts) < 3 /\
    header_value "X-RateLimit-Reset"
      [("X-RateLimit-Limit", Some 3); ("X-RateLimit-Remaining", Some 1);
       ("X-RateLimit-Reset", Some 60)] = Some (Some (ceil_div 60000 1000)).
Proof.
  apply (admitted_headers 60000 3 example_request 10 (<["Bearer k" := [0]]> ∅)).
  vm_compute. reflexivity.
Defined.

Lemma recent_of_sweep (envWindow windowMs t now : Z) (s : store) (k : string) :
  windowMs <= envWindow -> t <= now ->
  recent_of windowMs now (sweep envWindow t s) k = recent_of windowMs now s k.
Proof.
  intros Hw Ht. unfold recent_of. rewrite sweep_lookup.
  assert (Himp : forall x, now - x < windowMs -> t - x < envWindow) by lia.
  destruct (s !! k) as [ts|]; [|reflexivity].
  case_decide as Hc; cbn [default id].
  - rewrite <- (retained_twice envWindow t windowMs now ts Himp), Hc. reflexivity.
  - by rewrite (retained_twice envWindow t windowMs now ts Himp).
Qed.

(** The periodic sweep at time [t] changes nothing a later call at
    [now >= t] can observe, provided the middleware's window is no longer
    than the sweep's ([SF_RATE_LIMIT_WINDOW]): the call sees the same
    in-window timestamps and gets the same outcome and headers. *)
Theorem sweep_transparent_within_window (envWindow windowMs maxRequests t now : Z)
    (r : request) (s : store) :
  windowMs <= envWindow -> t <= now ->
  recent_of windowMs now (sweep envWindow t s) (identity_key r) =
    recent_of windowMs now s (identity_key r) /\
  (middleware windowMs maxRequests r now (sweep envWindow t s)).2 =
    (middleware windowMs maxRequests r now s).2.
Proof.
  intros Hw Ht. pose proof (recent_of_sweep envWindow windowMs t now s (identity_key r) Hw Ht) as Hr.
  split; [done|]. rewrite !middleware_unfold. cbv zeta. rewrite Hr.
  case_decide; reflexivity.
Qed.

Lemma sweep_transparent_within_window_witness :
  recent_of 60000 70 (sweep 60000 65 example_full_store) (identity_key example_request) =
    recent_of 60000 70 example_full_store (identity_key example_request) /\
  (middleware 60000 3 example_request 70 (sweep 60000 65 example_full_store)).2 =
    (middleware 60000 3 example_request 70 example_full_store).2.
Proof. apply sweep_transparent_within_window; lia. Defined.

Lemma retained_all_old (windowMs now : Z) (ts : list Z) :
  Forall (fun x => windowMs <= now - x) ts -> retained windowMs now ts = [].
Proof.
  induction ts as [|x ts IH]; intros Hf; [done|].
  apply Forall_cons in Hf as [Hx Hf].
  rewrite retained_cons. case_decide; [lia|]. by apply IH.
Qed.

(** The sweep drops by [SF_RATE_LIMIT_WINDOW], whatever window the
    middleware instances use: a key whose timestamps are all at least
    [envWindow] old at the sweep is deleted, so the next call for it sees
    no history and is admitted, even under a middleware with a longer
    window that would have counted them. *)
Theorem sweep_forgets_beyond_env_window (envWindow windowMs maxRequests t now : Z)
    (r : request) (s : store) (ts : list Z) :
  0 < maxRequests ->
  s !! identity_key r = Some ts ->
  Forall (fun x => envWindow <= t - x) ts ->
  sweep envWindow t s !! identity_key r = None /\
  recent_of windowMs now (sweep envWindow t s) (identity_key r) = [] /\
  is_admitted (middleware windowMs maxRequests r now (sweep envWindow t s)).2 = true.
Proof.
  intros Hm Hk Hold.
  assert (Hn : sweep envWindow t s !! identity_key r = None).
  { rewrite sweep_lookup, Hk. by rewrite decide_True by (by apply retained_all_old). }
  assert (Hr : recent_of windowMs now (sweep envWindow t s) (identity_key r) = []).
  { unfold recent_of. by rewrite Hn. }
  split; [done|]. split; [done|].
  rewrite middleware_unfold. cbv zeta. rewrite Hr. cbn [length Z.of_nat].
  case_decide; [lia|reflexivity].
Qed.

Lemma sweep_forgets_beyond_env_window_witness :
  is_limited (middleware 3600000 3 example_request 300000 example_full_store).2 = true /\
  (sweep 60000 300000 example_full_store !! identity_key example_request = None /\
   recent_of 3600000 300000 (sweep 60000 300000 example_full_store)
     (identity_key example_request) = [] /\
   is_admitted (middleware 3600000 3 example_request 300000
                  (sweep 60000 300000 example_full_store)).2 = true).
Proof.
  split; [vm_compute; reflexivity|].
  apply (sweep_forgets_beyond_env_window 60000 3600000 3 300000 300000 example_request
           example_full_store [0; 10; 20]).
  - lia.
  - vm_compute. reflexivity.
  - repeat apply Forall_cons_2; try apply Forall_nil_2; lia.
Defined.

(** After a call is answered 429 on a store built from the empty one by
    calls, sweeps and clears (clock not running backwards, every
    middleware with [maxRequests = m > 0]), with [oldest] the first
    in-window timestamp of the key: [Retry-After] is
    [ceil((oldest + windowMs - now) / 1000)], every call for the key at a
    time in [now .. oldest + windowMs - 1] is answered 429, every call at
    [oldest + windowMs] or later reaches [next()], and so does a retry
    after [Retry-After] seconds. *)
Theorem retry_boundary (envWindow envMax m windowMs : Z) (evs : list event)
    (r : request) (now : Z) (hs : list (string * hval)) (ra : hval) :
  0 < m -> calls_max envMax m evs ->
  times_nondecreasing evs -> Forall (fun e => event_time e <= now) evs ->
  (middleware windowMs m r now (run envWindow envMax evs ∅)).2 = Rejected 429 hs ra ->
  exists oldest,
    let s := run envWindow envMax evs ∅ in
    ra = Some (ceil_div (oldest + windowMs - now) 1000) /\
    now < oldest + windowMs /\
    (forall r' now', identity_key r' = identity_key r -> now <= now' < oldest + windowMs ->
       is_limited (middleware windowMs m r' now' s).2 = true) /\
    (forall r' now', identity_key r' = identity_key r -> oldest + windowMs <= now' ->
       is_admitted (middleware windowMs m r' now' s).2 = true) /\
    (forall c, ra = Some c ->
       is_admitted (middleware windowMs m r (now + 1000 * c) s).2 = true).
Proof.
  intros Hm Hc Hmono Hn Hrej.
  set (s := run envWindow envMax evs ∅) in *.
  assert (Hok : store_ok now s) by (by apply run_from_empty_ok).
  assert (Hlim : limits_ok m s) by (apply run_limits_ok; [done|apply limits_ok_empty]).
  set (k := identity_key r) in *.
  rewrite middleware_unfold in Hrej. cbv zeta in Hrej.
  case_decide as Hfull; [|discriminate].
  injection Hrej as _ Hra. fold k in Hfull, Hra.
  destruct (recent_of_ok windowMs now s k Hok) as [Hsort _].
  unfold recent_of in Hfull, Hra, Hsort.
  destruct (s !! k) as [ts|] eqn:Ek; cbn [default from_option id] in Hfull, Hra, Hsort;
    [|rewrite retained_nil in Hfull; cbn in Hfull; lia].
  destruct (map_Forall_lookup_1 _ _ _ _ Hok Ek) as [_ Hts_now].
  destruct (map_Forall_lookup_1 _ _ _ _ Hlim Ek) as [_ Hts_m].
  destruct (retained windowMs now ts) as [|oldest rest] eqn:Er;
    [cbn in Hfull; lia|].
  apply StronglySorted_cons in Hsort as [Hrest_ge _].
  assert (Hin : oldest ∈ retained windowMs now ts) by (rewrite Er; apply elem_of_cons; by left).
  assert (Hold_win : now - oldest < windowMs).
  { unfold retained in Hin. apply list_elem_of_filter in Hin. tauto. }
  assert (Hold_ts : oldest ∈ ts) by (by apply retained_subset in Hin).
  assert (Hge : forall x, x ∈ ts -> now - x < windowMs -> oldest <= x).
  { intros x Hx Hw.
    assert (Hx' : x ∈ retained windowMs now ts).
    { unfold retained. apply list_elem_of_filter. tauto. }
    rewrite Er in Hx'. apply elem_of_cons in Hx' as [->|Hx']; [lia|].
    rewrite Forall_forall in Hrest_ge. by apply Hrest_ge. }
  assert (Hlen_ts : (length (retained windowMs now ts) <= length ts)%nat)
    by apply retained_length.
  rewrite Er in Hlen_ts.
  assert (Hadm : forall r' now', identity_key r' = k -> oldest + windowMs <= now' ->
            is_admitted (middleware windowMs m r' now' s).2 = true).
  { intros r' now' Hk' Hnow'. rewrite middleware_unfold. cbv zeta.
    unfold recent_of. rewrite Hk', Ek. cbn [default from_option id].
    assert (Hlt : (length (retained windowMs now' ts) < length (retained windowMs now ts))%nat).
    { unfold retained. apply (filter_length_lt _ _ ts oldest).
      - intros x Hx Hw. rewrite Forall_forall in Hts_now.
        pose proof (Hts_now x Hx). lia.
      - done.
      - done.
      - lia. }
    rewrite Er in Hlt. cbn [length] in Hlt, Hlen_ts.
    case_decide; [lia|reflexivity]. }
  exists oldest. cbv zeta. split; [done|]. split; [lia|]. split; [|split; [exact Hadm|]].
  - intros r' now' Hk' Hnow'. rewrite middleware_unfold. cbv zeta.
    unfold recent_of. rewrite Hk', Ek. cbn [default from_option id].
    assert (Hle : (length (retained windowMs now ts) <= length (retained windowMs now' ts))%nat).
    { unfold retained. apply filter_length_mono.
      intros x Hx Hw. pose proof (Hge x Hx Hw). lia. }
    rewrite Er in Hle. cbn [length] in Hle, Hfull.
    case_decide; [reflexivity|lia].
  - intros c Hca. rewrite <- Hra in Hca. cbn in Hca. injection Hca as <-.
    apply Hadm; [done|].
    pose proof (ceil_div_1000 (oldest + windowMs - now)). lia.
Qed.

Lemma retry_boundary_witness :
  exists oldest,
    let s := run 60000 100 example_history ∅ in
    Some 60 = Some (ceil_div (oldest + 60000 - 30) 1000) /\
    30 < oldest + 60000 /\
    (forall r' now', identity_key r' = identity_key example_request ->
       30 <= now' < oldest + 60000 ->
       is_limited (middleware 60000 3 r' now' s).2 = true) /\
    (forall r' now', identity_key r' = identity_key example_request ->
       oldest + 60000 <= now' ->
       is_admitted (middleware 60000 3 r' now' s).2 = true) /\
    (forall c, Some 60 = Some c ->
       is_admitted (middleware 60000 3 example_request (30 + 1000 * c) s).2 = true).
Proof.
  apply (retry_boundary 60000 100 3 60000 example_history example_request 30
           example_limited_headers (Some 60)).
  - lia.
  - repeat apply Forall_cons_2; try apply Forall_nil_2; reflexivity.
  - simpl. repeat split; repeat apply Forall_cons_2; try apply Forall_nil_2; simpl; lia.
  - repeat apply Forall_cons_2; try apply Forall_nil_2; simpl; lia.
  - vm_compute. reflexivity.
Defined.

End RateLimitMore.

(* ================================================================= *)
(** ** More of the quota ledger: round trips and framing *)
(* ================================================================= *)

Module LedgerMore.
Import Ledger LedgerFacts.
Local Open Scope Z_scope.

Lemma with_used_same (st : site) : with_used st (used_bytes st) = st.
Proof. by destruct st. Qed.


Lemma update_used_compose (f g : Z -> Z) (name : string) (db : sites) :
  update_used f name (update_used g name db) = update_used (fun u => f (g u)) name db.
Proof.
  unfold update_used. destruct (db !! name) as [st|] eqn:E; [|by rewrite E].
  rewrite lookup_insert_eq, insert_insert_eq. reflexivity.
Qed.

(** [decrementUsedBytes] undoes [incrementUsedBytes] of the same amount
    on a row whose counter is not negative; in the other order the round
    trip is not exact: the counter ends at [max(n, used_bytes)], since the
    decrement was floored at zero. *)
Theorem increment_decrement_round_trip (n : Z) (name : string) (db : sites) (st : site) :
  db !! name = Some st -> 0 <= used_bytes st ->
  decrementUsedBytes n name (incrementUsedBytes n name db) = db /\
  incrementUsedBytes n name (decrementUsedBytes n name db)
    = updateUsedBytes (Z.max n (used_bytes st)) name db.
Proof.
  intros E Hu. unfold decrementUsedBytes, incrementUsedBytes, updateUsedBytes.
  rewrite !update_used_compose. split.
  - unfold update_used. rewrite E.
    replace (Z.max 0 (used_bytes st + n - n)) with (used_bytes st) by lia.
    rewrite with_used_same. by apply insert_id.
  - unfold update_used. rewrite E.
    replace (Z.max 0 (used_bytes st - n) + n) with (Z.max n (used_bytes st)) by lia.
    reflexivity.
Qed.

Lemma increment_decrement_round_trip_witness :
  decrementUsedBytes 30 "s" (incrementUsedBytes 30 "s" example_db) = example_db /\
  incrementUsedBytes 80 "s" (decrementUsedBytes 80 "s" example_db)
    = updateUsedBytes (Z.max 80 (used_bytes example_site)) "s" example_db.
Proof.
  destruct (increment_decrement_round_trip 30 "s" example_db example_site
              ltac:(reflexivity) ltac:(cbn; lia)) as [H1 _].
  destruct (increment_decrement_round_trip 80 "s" example_db example_site
              ltac:(reflexivity) ltac:(cbn; lia)) as [_ H2].
  split; [exact H1|exact H2].
Defined.

End LedgerMore.

(* ================================================================= *)
(** ** More of the handlers: file confinement, create *)
(* ================================================================= *)

Module HandlerMore.
Import SafePath Ledger Handlers.
Local Open Scope Z_scope.

Lemma safePath_some_under (cwd base userPath r : string) :
  safePath cwd base userPath = Some r -> under (resolve cwd [base]) r = true.
Proof.
  unfold safePath, under, sep. cbv zeta.
  destruct (starts_with (resolve cwd [base; normalize userPath]) (resolve cwd [base] +:+ "/")) eqn:H1;
    destruct (String.eqb (resolve cwd [base; normalize userPath]) (resolve cwd [base])) eqn:H2;
    cbn [negb andb]; intros E; try discriminate; injection E as <-;
    rewrite ?H1, ?H2; reflexivity.
Qed.

Lemma under_ne (root p t : string) :
  under root t = true -> under root p = false -> p <> t.
Proof. intros Ht Hp ->. congruence. Qed.

(** The upload and delete-file handlers of a site change no regular file
    outside the site's directory (the resolved [site.path]), whatever the
    request, and neither touches the [sites] table (in particular
    [used_bytes] is not updated). *)
Theorem file_handlers_confined (maxFileSize : Z) (cwd name : string) (f : option file)
    (q : upload_query) (filePath : string) (s : state) (site : site) (p : string) :
  db s !! name = Some site ->
  under (resolve cwd [site_path site]) p = false ->
  (p ∈ files (disk (upload maxFileSize cwd name f q s).2) <-> p ∈ files (disk s)) /\
  (p ∈ files (disk (deleteFile cwd name filePath s).2) <-> p ∈ files (disk s)) /\
  db (upload maxFileSize cwd name f q s).2 = db s /\
  db (deleteFile cwd name filePath s).2 = db s.
Proof.
  intros Es Hp. split; [|split; [|split]].
  - unfold upload, upload_check, upload_commit. rewrite Es.
    repeat case_match; simplify_eq; cbn [fst snd files disk db]; try tauto.
    match goal with H : safePath _ _ _ = Some ?t |- _ =>
      pose proof (under_ne _ _ _ (safePath_some_under _ _ _ _ H) Hp) end.
    set_solver.
  - unfold deleteFile. rewrite Es.
    repeat case_match; simplify_eq; cbn [fst snd files disk db]; try tauto.
    match goal with H : safePath _ _ _ = Some ?t |- _ =>
      pose proof (under_ne _ _ _ (safePath_some_under _ _ _ _ H) Hp) end.
    set_solver.
  - unfold upload, upload_check, upload_commit. rewrite Es.
    repeat case_match; simplify_eq; reflexivity.
  - unfold deleteFile. rewrite Es.
    repeat case_match; simplify_eq; reflexivity.
Qed.

Lemma file_handlers_confined_witness :
  ("/etc/passwd" ∈ files (disk (upload 52428800 "/srv" "s" (Some passwd_file) traversal_query
                                  host_state).2) <-> "/etc/passwd" ∈ files (disk host_state)) /\
  ("/etc/passwd" ∈ files (disk (deleteFile "/srv" "s" "../../../etc/passwd" host_state).2)
     <-> "/etc/passwd" ∈ files (disk host_state)) /\
  db (upload 52428800 "/srv" "s" (Some passwd_file) traversal_query host_state).2 = db host_state /\
  db (deleteFile "/srv" "s" "../../../etc/passwd" host_state).2 = db host_state.
Proof.
  apply (file_handlers_confined 52428800 "/srv" "s" (Some passwd_file) traversal_query
           "../../../etc/passwd" host_state
           {| site_path := "/var/sites/s"; quota_bytes := 1000; used_bytes := 0 |} "/etc/passwd");
    vm_compute; reflexivity.
Defined.

(** Uploading a file and then deleting it by the relative path the upload
    reports ([join(query.path || "", file.name)]) answers 200 and leaves
    the site's files as they were before the upload, minus the target
    (a file the upload overwrote is gone too); the directories the upload
    created remain, and the [sites] table is untouched. *)
Theorem upload_then_deleteFile (maxFileSize : Z) (cwd name : string) (fl : file)
    (q : upload_query) (s s1 : state) :
  upload maxFileSize cwd name (Some fl) q s = (201, s1) ->
  exists t,
    t ∈ files (disk s1) /\
    deleteFile cwd name (join [default EmptyString (query_path q); file_name fl]) s1 =
      (200, {| db := db s;
               disk := {| files := files (disk s) ∖ {[t]}; dirs := dirs (disk s1) |} |}).
Proof.
  unfold upload, upload_check, upload_commit.
  destruct (db s !! name) as [site|] eqn:Es; [|intros H; discriminate H].
  repeat case_match; intros Hu; simplify_eq.
  match goal with H : safePath _ _ _ = Some ?t |- _ => exists t; rename H into Ht end.
  cbn [files disk db]. split; [set_solver|].
  unfold deleteFile. cbn [db disk files dirs]. rewrite Es, Ht.
  unfold existsSync. cbn [files dirs].
  rewrite bool_decide_true by set_solver. cbn [orb negb].
  rewrite bool_decide_false;
    [|match goal with H : bool_decide _ = false |- _ =>
        apply bool_decide_eq_false in H; exact H end].
  do 3 f_equal. apply leibniz_equiv. set_solver.
Qed.

Lemma upload_then_deleteFile_witness :
  exists t,
    t ∈ files (disk (upload 52428800 "/srv" "s" (Some (file_a 10)) docs_query host_state).2) /\
    deleteFile "/srv" "s" (join [default EmptyString (query_path docs_query); file_name (file_a 10)])
      (upload 52428800 "/srv" "s" (Some (file_a 10)) docs_query host_state).2 =
      (200, {| db := db host_state;
               disk := {| files := files (disk host_state) ∖ {[t]};
                          dirs := dirs (disk (upload 52428800 "/srv" "s" (Some (file_a 10))
                                                docs_query host_state).2) |} |}).
Proof.
  apply (upload_then_deleteFile 52428800 "/srv" "s" (file_a 10) docs_query host_state).
  vm_compute. reflexivity.
Defined.

(** The create-site handler has three outcomes: 409 when the name is
    taken, with nothing changed and nothing sent to Caddy; 201, after
    which the table holds the new row (default quota 104857600 bytes,
    nothing used), the site directory exists and no regular file has
    changed; or 500 (the directory could not be made, or Caddy refused
    the route), with the table unchanged and no regular file outside the
    site directory changed. *)
Theorem createSite_outcomes (USE_SYNC_SCRIPT : bool) (postStatus : Z)
    (SITES_ROOT cwd name : string) (auth : option (string * string)) (s : state)
    (st : Z) (s' : state) (rq : list Caddy.api_request) :
  let abs := resolve cwd [getSitePath SITES_ROOT name] in
  createSite USE_SYNC_SCRIPT postStatus SITES_ROOT cwd name auth s = (st, s', rq) ->
  (st = 409 /\ s' = s /\ rq = [] /\ is_Some (db s !! name)) \/
  (st = 201 /\ db s !! name = None /\
   db s' = <[name := new_site (getSitePath SITES_ROOT name)]> (db s) /\
   files (disk s') = files (disk s) /\ abs ∈ dirs (disk s')) \/
  (st = 500 /\ db s' = db s /\
   forall p, under abs p = false -> (p ∈ files (disk s') <-> p ∈ files (disk s))).
Proof.
  intros abs. unfold createSite. fold abs.
  destruct (db s !! name) as [row|] eqn:E.
  - intros H. injection H as H1 H2 H3. subst st s' rq. left. split; [done|]. split; [done|]. split; [done|]. by eexists.
  - destruct (existsb _ _) eqn:Ex.
    + intros H. injection H as H1 H2 H3. subst st s' rq. right; right. tauto.
    + destruct (Caddy.addSite _ _ _ _ _) as [[|] rq0] eqn:Ec;
        intros H; injection H as H1 H2 H3; subst st s' rq; cbn [db disk files dirs rmSync].
      * right; left. repeat split.
        apply elem_of_union_l, elem_of_list_to_set, elem_of_app. right. by apply elem_of_cons; left.
      * right; right. split; [done|split; [done|]].
        intros p Hp. rewrite elem_of_filter. tauto.
Qed.

Lemma createSite_outcomes_witness :
  let abs := resolve "/srv" [getSitePath "./sites" "blog"] in
  let r := createSite true 0 "./sites" "/srv" "blog" None host_state in
  (r.1.1 = 409 /\ r.1.2 = host_state /\ r.2 = [] /\ is_Some (db host_state !! "blog")) \/
  (r.1.1 = 201 /\ db host_state !! "blog" = None /\
   db r.1.2 = <["blog" := new_site (getSitePath "./sites" "blog")]> (db host_state) /\
   files (disk r.1.2) = files (disk host_state) /\ abs ∈ dirs (disk r.1.2)) \/
  (r.1.1 = 500 /\ db r.1.2 = db host_state /\
   forall p, under abs p = false -> (p ∈ files (disk r.1.2) <-> p ∈ files (disk host_state))).
Proof.
  apply (createSite_outcomes true 0 "./sites" "/srv" "blog" None host_state 201
           (createSite true 0 "./sites" "/srv" "blog" None host_state).1.2
           (createSite true 0 "./sites" "/srv" "blog" None host_state).2).
  vm_compute. reflexivity.
Defined.

(** When Caddy refuses the route of a new site (admin API, response not
    ok), the handler answers 500 after having sent that one [POST], adds
    no row, and leaves nothing at or under the site directory: the
    [rmSync] of the clean-up also removes files that were there before the
    request. *)
Theorem createSite_caddy_failure_removes_site_dir (postStatus : Z)
    (SITES_ROOT cwd name : string) (auth : option (string * string)) (s : state) :
  let sitePath := getSitePath SITES_ROOT name in
  let abs := resolve cwd [sitePath] in
  db s !! name = None -> Caddy.ok postStatus = false ->
  existsb (fun d => bool_decide (d ∈ files (disk s))) (dir_chain abs ++ [abs]) = false ->
  exists s',
    createSite false postStatus SITES_ROOT cwd name auth s =
      (500, s', [Caddy.PostRoute (Caddy.route_id name) sitePath auth]) /\
    db s' = db s /\
    forall p, under abs p = true -> (p ∉ files (disk s')) /\ (p ∉ dirs (disk s')).
Proof.
  intros sitePath abs E Hok Ex. unfold createSite. fold sitePath abs.
  rewrite E, Ex. unfold Caddy.addSite, Caddy.addSiteViaApi. rewrite Hok.
  eexists. split; [reflexivity|]. cbn [db disk files dirs rmSync]. split; [done|].
  intros p Hp. rewrite !elem_of_filter, Hp. split; intros [H _]; discriminate H.
Qed.

Lemma createSite_caddy_failure_removes_site_dir_witness :
  let s := {| db := ∅; disk := {| files := {["/var/sites/s/old.html"]}; dirs := ∅ |} |} in
  exists s',
    createSite false 500 "/var/sites" "/srv" "s" None s =
      (500, s', [Caddy.PostRoute (Caddy.route_id "s") (getSitePath "/var/sites" "s") None]) /\
    db s' = db s /\
    forall p, under (resolve "/srv" [getSitePath "/var/sites" "s"]) p = true ->
      (p ∉ files (disk s')) /\ (p ∉ dirs (disk s')).
Proof.
  apply (createSite_caddy_failure_removes_site_dir 500 "/var/sites" "/srv" "s" None
           {| db := ∅; disk := {| files := {["/var/sites/s/old.html"]}; dirs := ∅ |} |});
    vm_compute; reflexivity.
Defined.

End HandlerMore.
